(** * Gambit's bounds-checked array ([libgambit/array.h])

    A shallow embedding of [Gambit::Array<T>] and of
    [Gambit::ArrayPtrConstIterator<T>], and the properties of their public
    operations.

    The class keeps three fields, [mindex], [maxdex] and [data], where [data]
    is the address of a block obtained from [new T[...]] moved down by
    [mindex] elements, so that [data[i]] is slot [i - mindex] of the block.
    The embedding keeps this layout: array objects live in an object store,
    element blocks live in a free store, pointers are a block with an element
    offset, and every member function is a computation on that memory which
    returns, throws, or has no defined behaviour.

    An [int] is an integer from [INT_MIN] to [INT_MAX], kept as a [Z]; the
    arithmetic of the code on [int]s is written with [int_succ], [int_pred]
    and [int_sub], which wrap around at the two ends as the 32-bit machine
    arithmetic does.  Pointer arithmetic and comparisons are exact.
    Allocation never fails for lack of memory. *)

From stdpp Require Import base option list gmap.
From Stdlib Require Import ZArith Lia.

Local Open Scope Z_scope.

(** ** Exceptions, pointers and array objects *)

(** [Gambit::IndexException] and [Gambit::RangeException]. *)
Inductive exception : Type :=
| IndexException
| RangeException.

(** A [T *]: null, or a position [off] elements away from the start of the
    block [blk] of the free store. *)
Inductive pointer : Type :=
| Null
| Ptr (blk : nat) (off : Z).

(** [p + k] and [p - k]. *)
Definition ptr_add (p : pointer) (k : Z) : pointer :=
  match p with
  | Null => Null
  | Ptr b o => Ptr b (o + k)
  end.

Definition ptr_sub (p : pointer) (k : Z) : pointer :=
  match p with
  | Null => Null
  | Ptr b o => Ptr b (o - k)
  end.

(** [if (p)]. *)
Definition is_null (p : pointer) : bool :=
  match p with
  | Null => true
  | Ptr _ _ => false
  end.

(** The fields of an [Array<T>] object. *)
Record Array : Type := mkArray {
  mindex : Z;
  maxdex : Z;
  data : pointer
}.

Definition set_maxdex (a : Array) (hi : Z) : Array :=
  mkArray (mindex a) hi (data a).

Definition set_data (a : Array) (p : pointer) : Array :=
  mkArray (mindex a) (maxdex a) p.

(** Addresses of array objects. *)
Abbreviation loc := nat (only parsing).

(** ** The type [int] *)

Definition INT_MIN : Z := - 2 ^ 31.

Definition INT_MAX : Z := 2 ^ 31 - 1.

Definition is_int (x : Z) : Prop := INT_MIN ≤ x ≤ INT_MAX.

(** [x + 1], [++x] and [x++]: above [INT_MAX] comes [INT_MIN]. *)
Definition int_succ (x : Z) : Z :=
  if x + 1 >? INT_MAX then INT_MIN else x + 1.

(** [x - 1] and [--x]: below [INT_MIN] comes [INT_MAX]. *)
Definition int_pred (x : Z) : Z :=
  if x - 1 <? INT_MIN then INT_MAX else x - 1.

(** [x - y]: the difference of two [int]s, brought back by [2^32] when it
    leaves the range. *)
Definition int_sub (x y : Z) : Z :=
  if x - y >? INT_MAX then x - y - 2 ^ 32
  else if x - y <? INT_MIN then x - y + 2 ^ 32
  else x - y.

(** An [unsigned int] taken as an [int]: the values from [2^31] on come out
    negative. *)
Definition int_of_unsigned (n : N) : Z :=
  if (n <? 2 ^ 31)%N then Z.of_N n else Z.of_N n - 2 ^ 32.

(** The fields of two arrays with bounds [1 .. 3] whose elements are in
    block [0] and in block [1]. *)
Definition arr3 : Array := mkArray 1 3 (Ptr 0 (-1)).

Definition arr3' : Array := mkArray 1 3 (Ptr 1 (-1)).

(** The fields of arrays at the ends of the range of [int]: [arr_hi] has one
    element, at index [INT_MAX - 1]; [arr_lo] has one element, at index
    [INT_MIN]; [arr_end] has the bounds [INT_MAX .. INT_MAX - 1] and no
    element; [arr_full] and [arr_full'] have the bounds [1 .. INT_MAX], as
    [Array(2147483647u)] gives them; [arr_long] has the bounds
    [-1 .. INT_MAX - 2]; the last three hold [INT_MAX] elements, for which
    [zeros] stands. *)
Definition arr_hi : Array :=
  mkArray (INT_MAX - 1) (INT_MAX - 1) (Ptr 0 (- (INT_MAX - 1))).

Definition arr_lo : Array := mkArray INT_MIN INT_MIN (Ptr 0 (- INT_MIN)).

Definition arr_end : Array := mkArray INT_MAX (INT_MAX - 1) Null.

Definition arr_full : Array := mkArray 1 INT_MAX (Ptr 0 (-1)).

Definition arr_full' : Array := mkArray 1 INT_MAX (Ptr 1 (-1)).

Definition arr_long : Array := mkArray (-1) (INT_MAX - 2) (Ptr 0 1).

Definition zeros : list Z := replicate (Z.to_nat INT_MAX) 0.

(** [!=] on integers, and integers standing for pointers, each to the
    object of that number. *)
Definition Z_neq (x y : Z) : bool := negb (x =? y).

Definition Z_pointee (p : Z) : option Z := Some p.



Section ArrayT.

(** The element type, the value [new T[n]] leaves in each slot, and the
    element type's [operator!=]. *)
Context {T : Type}.
Variable T_default : T.
Variable T_neq : T → T → bool.

(** ** Memory *)

(** [objs] maps the address of each live array object to its fields; [bufs]
    is the free store: block [b] is [Some xs] while allocated with contents
    [xs], [None] once released.  Blocks are never handed out twice. *)
Record mem : Type := Mem {
  objs : gmap nat Array;
  bufs : list (option (list T))
}.

Inductive outcome (A : Type) : Type :=
| Ok (a : A) (m : mem)
| Throw (e : exception) (m : mem)
| Undefined.
Global Arguments Ok {A} a m.
Global Arguments Throw {A} e m.
Global Arguments Undefined {A}.

Definition M (A : Type) : Type := mem → outcome A.

Definition ret {A} (a : A) : M A := λ m, Ok a m.

Definition bind {A B} (c : M A) (k : A → M B) : M B :=
  λ m, match c m with
       | Ok a m' => k a m'
       | Throw e m' => Throw e m'
       | Undefined => Undefined
       end.

Definition throw {A} (e : exception) : M A := λ m, Throw e m.

Definition undefined {A} : M A := λ _, Undefined.

#[global] Instance M_ret : MRet M := @ret.
#[global] Instance M_bind : MBind M := λ A B k c, bind c k.

(** Reading and writing the fields of the object at [this]. *)
Definition get_obj (this : loc) : M Array :=
  λ m, match objs m !! this with
       | Some a => Ok a m
       | None => Undefined
       end.

Definition set_obj (this : loc) (a : Array) : M unit :=
  λ m, Ok () (Mem (<[this := a]> (objs m)) (bufs m)).

(** [new T[n]]: a block of its own with [n] slots, each holding [T_default].
    A negative [n] is no number of slots, and no outcome is given for it. *)
Definition new_array (n : Z) : M pointer :=
  λ m, if n <? 0 then Undefined
       else Ok (Ptr (length (bufs m)) 0)
               (Mem (objs m) (bufs m ++ [Some (replicate (Z.to_nat n) T_default)])).

(** [delete [] p]: nothing for a null pointer; otherwise [p] has to be the
    start of a block that is still allocated. *)
Definition delete_array (p : pointer) : M unit :=
  λ m, match p with
       | Null => Ok () m
       | Ptr b o =>
           if o =? 0 then
             match bufs m !! b with
             | Some (Some _) => Ok () (Mem (objs m) (<[b := None]> (bufs m)))
             | _ => Undefined
             end
           else Undefined
       end.

(** The slot [p[i]] designates, when [p] is not null and the slot lies
    inside an allocated block. *)
Definition slot (p : pointer) (i : Z) (m : mem) : option (nat * list T * nat) :=
  match p with
  | Null => None
  | Ptr b o =>
      match bufs m !! b with
      | Some (Some xs) =>
          if (0 <=? o + i) && (o + i <? Z.of_nat (length xs))
          then Some (b, xs, Z.to_nat (o + i))
          else None
      | _ => None
      end
  end.

(** Reading [p[i]]. *)
Definition load (p : pointer) (i : Z) : M T :=
  λ m, match slot p i m with
       | Some (_, xs, k) =>
           match xs !! k with
           | Some x => Ok x m
           | None => Undefined
           end
       | None => Undefined
       end.

(** [p[i] = x]. *)
Definition store (p : pointer) (i : Z) (x : T) : M unit :=
  λ m, match slot p i m with
       | Some (b, xs, k) => Ok () (Mem (objs m) (<[b := Some (<[k := x]> xs)]> (bufs m)))
       | None => Undefined
       end.

(** ** Loops *)

(** A round of a loop tests the condition and either leaves the loop, with
    the result [inr r], or runs the body and goes on with the next value of
    the counter, [inl i].  [rounds p round i] runs up to [p] rounds from [i]
    and stops at the first that leaves the loop or fails. *)
Fixpoint rounds {R} (p : positive) (round : Z → M (Z + R)) (i : Z) : M (Z + R) :=
  match p with
  | xH => round i
  | xO p' =>
      r ← rounds p' round i;
      match r with
      | inl j => rounds p' round j
      | inr x => mret (inr x)
      end
  | xI p' =>
      r ← round i;
      match r with
      | inl j =>
          r' ← rounds p' round j;
          match r' with
          | inl k => rounds p' round k
          | inr x => mret (inr x)
          end
      | inr x => mret (inr x)
      end
  end.

(** An [int] counter has [2^32] values: a loop that was not left within
    [2^32 + 1] rounds, each through the same test on the counter and an
    unchanged condition, is not left any more, and has no outcome. *)
Definition loop {R} (round : Z → M (Z + R)) (i : Z) : M R :=
  r ← rounds (2 ^ 32 + 1) round i;
  match r with
  | inl _ => undefined
  | inr x => mret x
  end.

(** [for (i = ...; i <= hi; i++) body] and [for (i = ...; i < n; i++) body],
    run from the current value of [i]; the result is the value of [i] when
    the loop is left. *)
Definition for_loop (i hi : Z) (body : Z → M unit) : M Z :=
  loop (λ j, if j <=? hi then body j;; mret (inl (int_succ j))
             else mret (inr j)) i.

Definition for_loop_lt (i n : Z) (body : Z → M unit) : M Z :=
  loop (λ j, if j <? n then body j;; mret (inl (int_succ j))
             else mret (inr j)) i.

(** ** Member functions of [Array<T>] *)

(** [int InsertAt(const T &t, int n)]. *)
Definition InsertAt (this : loc) (t : T) (n : Z) : M Z :=
  a ← get_obj this;
  if (mindex a >? n) || (n >? int_succ (maxdex a)) then throw IndexException
  else
    (* new T[++this->maxdex - this->mindex + 1] - this->mindex *)
    let a := set_maxdex a (int_succ (maxdex a)) in
    set_obj this a;;
    p ← new_array (int_succ (int_sub (maxdex a) (mindex a)));
    let new_data := ptr_sub p (mindex a) in
    i ← for_loop (mindex a) (int_pred n)
          (λ i, x ← load (data a) i; store new_data i x);
    store new_data i t;;
    let i := int_succ i in
    _ ← for_loop i (maxdex a)
          (λ i, x ← load (data a) (int_pred i); store new_data i x);
    (if is_null (data a) then mret () else delete_array (ptr_add (data a) (mindex a)));;
    set_obj this (set_data a new_data);;
    mret n.

(** [Array(unsigned int len = 0)]: the object built at [this].  [maxdex(len)]
    turns the unsigned length into an [int]. *)
Definition Array_len (this : loc) (len : N) : M unit :=
  let mindex := 1 in
  let maxdex := int_of_unsigned len in
  d ← (if (len =? 0)%N then mret Null
       else p ← new_array (Z.of_N len); mret (ptr_sub p 1));
  set_obj this (mkArray mindex maxdex d).

(** [Array(int lo, int hi)].  An object whose constructor throws never comes
    to exist: the fields are entered in the object store when the constructor
    completes. *)
Definition Array_lo_hi (this : loc) (lo hi : Z) : M unit :=
  let mindex := lo in
  let maxdex := hi in
  if int_succ maxdex <? mindex then throw RangeException
  else
    d ← (if maxdex >=? mindex
         then p ← new_array (int_succ (int_sub maxdex mindex));
              mret (ptr_sub p mindex)
         else mret Null);
    set_obj this (mkArray mindex maxdex d).

(** [Array(const Array<T> &a)]. *)
Definition Array_copy (this : loc) (other : loc) : M unit :=
  a ← get_obj other;
  let mindex := mindex a in
  let maxdex := maxdex a in
  d ← (if maxdex >=? mindex
       then p ← new_array (int_succ (int_sub maxdex mindex));
            mret (ptr_sub p mindex)
       else mret Null);
  _ ← for_loop mindex maxdex
        (λ i, x ← load (data a) i; store d i x);
  set_obj this (mkArray mindex maxdex d).

(** [~Array()]: the block is released and the object is gone. *)
Definition del_obj (this : loc) : M unit :=
  λ m, Ok () (Mem (delete this (objs m)) (bufs m)).

Definition Array_destroy (this : loc) : M unit :=
  a ← get_obj this;
  (if maxdex a >=? mindex a then delete_array (ptr_add (data a) (mindex a))
   else mret ());;
  del_obj this.

(** [Array<T> &operator=(const Array<T> &a)]; [this != &a] compares the
    addresses of the two objects.  The result is the reference [*this]. *)
Definition operator_assign (this other : loc) : M loc :=
  (if bool_decide (this ≠ other) then
     me ← get_obj this;
     a ← get_obj other;
     (if is_null (data me)
         || (negb (is_null (data me))
             && (negb (mindex me =? mindex a) || negb (maxdex me =? maxdex a)))
      then
        (if negb (is_null (data me))
         then delete_array (ptr_add (data me) (mindex me))
         else mret ());;
        let mindex := mindex a in
        let maxdex := maxdex a in
        d ← (if maxdex >=? mindex
             then p ← new_array (int_succ (int_sub maxdex mindex));
                  mret (ptr_sub p mindex)
             else mret Null);
        set_obj this (mkArray mindex maxdex d)
      else mret ());;
     me ← get_obj this;
     _ ← for_loop (mindex me) (maxdex me)
           (λ i, x ← load (data a) i; store (data me) i x);
     mret ()
   else mret ());;
  mret this.

(** [int Length(void) const], [int First(void) const], [int Last(void) const]. *)
Definition Length (this : loc) : M Z :=
  a ← get_obj this; mret (int_succ (int_sub (maxdex a) (mindex a))).

Definition First (this : loc) : M Z :=
  a ← get_obj this; mret (mindex a).

Definition Last (this : loc) : M Z :=
  a ← get_obj this; mret (maxdex a).

(** [operator[](int index)]: the checked access, which yields the pointer
    and index of the element; reading through it is [Get], writing through
    the non-const overload is [Put]. *)
Definition operator_index (this : loc) (index : Z) : M pointer :=
  a ← get_obj this;
  if (index <? mindex a) || (index >? maxdex a) then throw IndexException
  else mret (data a).

Definition Get (this : loc) (index : Z) : M T :=
  d ← operator_index this index; load d index.

Definition Put (this : loc) (index : Z) (x : T) : M unit :=
  d ← operator_index this index; store d index x.

(** [bool operator==(const Array<T> &a) const]: the loop leaves the function
    with [false] at the first pair of elements that differ, and with [true]
    when its condition fails. *)
Definition eq_loop (this other : loc) (i hi : Z) : M bool :=
  loop (λ j, if j <=? hi then
               x ← Get this j;
               y ← Get other j;
               if T_neq x y then mret (inr false)
               else mret (inl (int_succ j))
             else mret (inr true)) i.

Definition operator_eq (this other : loc) : M bool :=
  me ← get_obj this;
  a ← get_obj other;
  if negb (mindex me =? mindex a) || negb (maxdex me =? maxdex a) then mret false
  else eq_loop this other (mindex me) (maxdex me).

(** [bool operator!=(const Array<T> &a) const]. *)
Definition operator_ne (this other : loc) : M bool :=
  b ← operator_eq this other; mret (negb b).

(** [int Find(const T &t) const]:
    [for (i = mindex; i <= maxdex && data[i] != t; i++);]. *)
Definition find_loop (d : pointer) (t : T) (i hi : Z) : M Z :=
  loop (λ j, if j <=? hi then
               x ← load d j;
               if T_neq x t then mret (inl (int_succ j))
               else mret (inr j)
             else mret (inr j)) i.

Definition Find (this : loc) (t : T) : M Z :=
  a ← get_obj this;
  i ← find_loop (data a) t (mindex a) (maxdex a);
  mret (if i <=? maxdex a then i else int_pred (mindex a)).

(** [bool Contains(const T &t) const]. *)
Definition Contains (this : loc) (t : T) : M bool :=
  i ← Find this t;
  a ← get_obj this;
  mret (negb (i =? int_pred (mindex a))).

(** [int Append(const T &t)]. *)
Definition Append (this : loc) (t : T) : M Z :=
  a ← get_obj this;
  InsertAt this t (int_succ (maxdex a)).

(** [int Insert(const T &t, int n)]. *)
Definition Insert (this : loc) (t : T) (n : Z) : M Z :=
  a ← get_obj this;
  InsertAt this t
    (if n <? mindex a then mindex a
     else if n >? int_succ (maxdex a) then int_succ (maxdex a) else n).

(** [T Remove(int n)]. *)
Definition Remove (this : loc) (n : Z) : M T :=
  a ← get_obj this;
  if (n <? mindex a) || (n >? maxdex a) then throw IndexException
  else
    ret ← load (data a) n;
    (* --this->maxdex >= this->mindex *)
    let a := set_maxdex a (int_pred (maxdex a)) in
    set_obj this a;;
    new_data ← (if maxdex a >=? mindex a
                then p ← new_array (int_succ (int_sub (maxdex a) (mindex a)));
                     mret (ptr_sub p (mindex a))
                else mret Null);
    i ← for_loop_lt (mindex a) n
          (λ i, x ← load (data a) i; store new_data i x);
    _ ← for_loop i (maxdex a)
          (λ i, x ← load (data a) (int_succ i); store new_data i x);
    delete_array (ptr_add (data a) (mindex a));;
    set_obj this (set_data a new_data);;
    mret ret.

(** ** [ArrayPtrConstIterator<T>] *)

(** The iterated array holds pointers; [pointee p] is the object [p] points
    to, when there is one.  The iterator keeps a reference to the array and
    its own index. *)
Context {U : Type}.
Variable pointee : T → option U.

Record ArrayPtrConstIterator : Type := mkIter {
  m_array : loc;
  m_index : Z
}.

(** [ArrayPtrConstIterator(const Array<T *> &p_array)]. *)
Definition Iterator_new (p_array : loc) : M ArrayPtrConstIterator :=
  first ← First p_array; mret (mkIter p_array first).

(** [void operator++(void)] and [void operator++(int)]. *)
Definition Iterator_inc_prefix (it : ArrayPtrConstIterator) : ArrayPtrConstIterator :=
  mkIter (m_array it) (int_succ (m_index it)).

Definition Iterator_inc_postfix (it : ArrayPtrConstIterator) : ArrayPtrConstIterator :=
  mkIter (m_array it) (int_succ (m_index it)).

(** [bool AtEnd(void) const]. *)
Definition AtEnd (it : ArrayPtrConstIterator) : M bool :=
  last ← Last (m_array it); mret (m_index it >? last).

(** [T &operator*(void) const], [const T *operator->(void) const] and
    [operator T *(void) const]. *)
Definition Iterator_star (it : ArrayPtrConstIterator) : M U :=
  p ← Get (m_array it) (m_index it);
  match pointee p with
  | Some u => mret u
  | None => undefined
  end.

Definition Iterator_arrow (it : ArrayPtrConstIterator) : M T :=
  Get (m_array it) (m_index it).

Definition Iterator_cast (it : ArrayPtrConstIterator) : M T :=
  Get (m_array it) (m_index it).

(** ** The class invariant *)

(** [owns m d lo xs]: [d] is the [data] field of an array whose lowest index
    is [lo] and whose elements are [xs]: null when there are no elements,
    otherwise the start of an allocated block holding [xs], moved down by
    [lo]. *)
Definition owns (m : mem) (d : pointer) (lo : Z) (xs : list T) : Prop :=
  match d with
  | Null => xs = []
  | Ptr b o => xs ≠ [] ∧ o = - lo ∧ bufs m !! b = Some (Some xs)
  end.

(** [is_array m this a xs]: in [m] the object at [this] has the fields [a]
    and is a well-formed array with the elements [xs], from index [mindex a]
    to index [maxdex a]. *)
Definition is_array (m : mem) (this : loc) (a : Array) (xs : list T) : Prop :=
  objs m !! this = Some a ∧
  Z.of_nat (length xs) = maxdex a - mindex a + 1 ∧
  owns m (data a) (mindex a) xs.

(** [int_array a]: the two bounds are [int]s, and so is the number of
    elements, as for every block that [new T[n]] gave for an [int] [n]. *)
Definition int_array (a : Array) : Prop :=
  is_int (mindex a) ∧ is_int (maxdex a) ∧ maxdex a - mindex a + 1 ≤ INT_MAX.

(** Two [data] fields that do not share a block. *)
Definition separate (p q : pointer) : Prop :=
  match p, q with
  | Ptr b _, Ptr b' _ => b ≠ b'
  | _, _ => True
  end.

(** The free store once the block of [old] is released. *)
Definition release (old : pointer) (bs : list (option (list T))) :
    list (option (list T)) :=
  match old with
  | Null => bs
  | Ptr b _ => <[b := None]> bs
  end.

(** The [data] field of an array with lowest index [lo] that takes its block
    from [m] for the elements [xs]: the next block of the free store moved
    down by [lo], or null when there are no elements. *)
Definition fresh_data (m : mem) (lo : Z) (xs : list T) : pointer :=
  match xs with
  | [] => Null
  | _ :: _ => Ptr (length (bufs m)) (- lo)
  end.

(** The free store once that block is taken. *)
Definition alloc (bs : list (option (list T))) (xs : list T) :
    list (option (list T)) :=
  match xs with
  | [] => bs
  | _ :: _ => bs ++ [Some xs]
  end.

(** The memory after the array object at [this] gave up the block of [old]
    and took a block of its own for the elements [xs], with the bounds
    [lo .. hi]. *)
Definition realloc (m : mem) (this : loc) (lo hi : Z) (xs : list T)
    (old : pointer) : mem :=
  Mem (<[this := mkArray lo hi (fresh_data m lo xs)]> (objs m))
      (alloc (release old (bufs m)) xs).

(** [n] brought into [lo .. hi + 1], the positions at which an element can
    be inserted, as the contract words it: below [lo] gives [lo], above
    [hi + 1] gives [hi + 1].  [Insert_spec] shows the conditional of
    [Insert] computes it. *)
Definition clamp (lo hi n : Z) : Z := Z.max lo (Z.min n (hi + 1)).

(** The elements of the array inserted at index [n], and removed from it. *)
Definition inserted (lo n : Z) (t : T) (xs : list T) : list T :=
  take (Z.to_nat (n - lo)) xs ++ t :: drop (Z.to_nat (n - lo)) xs.

Definition removed (lo n : Z) (xs : list T) : list T :=
  delete (Z.to_nat (n - lo)) xs.

(** A memory with one array at address [0], and with two arrays, at
    addresses [0] and [1], whose elements are in block [0] and in block [1]. *)
Definition one_array (a : Array) (xs : list T) : mem :=
  Mem {[ 0%nat := a ]} [Some xs].

Definition two_arrays (a : Array) (xs : list T) (b : Array) (ys : list T) : mem :=
  Mem {[ 0%nat := a; 1%nat := b ]} [Some xs; Some ys].

(** [operator==] on the elements: no pair of elements differs. *)
Definition same_elements (xs ys : list T) : bool :=
  forallb (λ xy, negb (T_neq xy.1 xy.2)) (zip xs ys).

(** The number of blocks of the free store that are allocated. *)
Fixpoint live (bs : list (option (list T))) : nat :=
  match bs with
  | [] => O
  | Some _ :: bs' => S (live bs')
  | None :: bs' => live bs'
  end.



(** The memory after the elements of block [b] became [xs]. *)
Definition overwrite (m : mem) (b : nat) (xs : list T) : mem :=
  Mem (objs m) (<[b := Some xs]> (bufs m)).

(** [rounds] with the rounds counted one by one. *)
Fixpoint rounds_nat {R} (n : nat) (round : Z → M (Z + R)) (i : Z) : M (Z + R) :=
  match n with
  | O => mret (inl i)
  | S k =>
      r ← round i;
      match r with
      | inl j => rounds_nat k round j
      | inr x => mret (inr x)
      end
  end.

(** A computation that leaves the memory as it found it, whether it returns
    or throws. *)
Definition read_only {A} (c : M A) : Prop :=
  ∀ m, match c m with
       | Ok _ m' | Throw _ m' => m' = m
       | Undefined => True
       end.


(** ** Running computations *)

Lemma bind_Ok {A B} (c : M A) (k : A → M B) m a m' :
  c m = Ok a m' → (c ≫= k) m = k a m'.
Proof. unfold mbind, M_bind, bind. by intros ->. Qed.

Lemma bind_Throw {A B} (c : M A) (k : A → M B) m e m' :
  c m = Throw e m' → (c ≫= k) m = Throw e m'.
Proof. unfold mbind, M_bind, bind. by intros ->. Qed.

Lemma bind_Undefined {A B} (c : M A) (k : A → M B) m :
  c m = Undefined → (c ≫= k) m = Undefined.
Proof. unfold mbind, M_bind, bind. by intros ->. Qed.

Lemma ret_Ok {A} (a : A) m : (mret a : M A) m = Ok a m.
Proof. reflexivity. Qed.

Lemma get_obj_Ok this a m : objs m !! this = Some a → get_obj this m = Ok a m.
Proof. unfold get_obj. by intros ->. Qed.

Lemma get_obj_None {A} this (k : Array → M A) m :
  objs m !! this = None → (get_obj this ≫= k) m = Undefined.
Proof. intros H. apply bind_Undefined. unfold get_obj. by rewrite H. Qed.

(** Reading and writing a slot of an allocated block. *)
Lemma load_Ok m b o i xs x :
  bufs m !! b = Some (Some xs) →
  0 ≤ o + i →
  xs !! Z.to_nat (o + i) = Some x →
  load (Ptr b o) i m = Ok x m.
Proof.
  intros Hb Hlo Hx. unfold load, slot. rewrite Hb.
  apply lookup_lt_Some in Hx as Hlen.
  destruct (Z.leb_spec 0 (o + i)); [|lia].
  destruct (Z.ltb_spec (o + i) (Z.of_nat (length xs))); [|lia].
  simpl. by rewrite Hx.
Qed.

Lemma store_Ok m b o i xs x :
  bufs m !! b = Some (Some xs) →
  0 ≤ o + i < Z.of_nat (length xs) →
  store (Ptr b o) i x m =
  Ok () (Mem (objs m) (<[b := Some (<[Z.to_nat (o + i) := x]> xs)]> (bufs m))).
Proof.
  intros Hb Hi. unfold store, slot. rewrite Hb.
  destruct (Z.leb_spec 0 (o + i)); [|lia].
  destruct (Z.ltb_spec (o + i) (Z.of_nat (length xs))); [|lia].
  done.
Qed.


(** ** Arithmetic on [int] *)

Lemma int_succ_eq x : x < INT_MAX → int_succ x = x + 1.
Proof.
  intros Hx. unfold int_succ. rewrite Z.gtb_ltb.
  destruct (Z.ltb_spec INT_MAX (x + 1)); [lia | done].
Qed.

Lemma int_succ_max x : INT_MAX ≤ x → int_succ x = INT_MIN.
Proof.
  intros Hx. unfold int_succ. rewrite Z.gtb_ltb.
  destruct (Z.ltb_spec INT_MAX (x + 1)); [done | lia].
Qed.

Lemma int_succ_le x : int_succ x ≤ x + 1.
Proof.
  unfold int_succ, INT_MIN, INT_MAX. rewrite Z.gtb_ltb.
  destruct (Z.ltb_spec (2 ^ 31 - 1) (x + 1)); lia.
Qed.

Lemma int_pred_eq x : INT_MIN < x → int_pred x = x - 1.
Proof.
  intros Hx. unfold int_pred.
  destruct (Z.ltb_spec (x - 1) INT_MIN); [lia | done].
Qed.

Lemma int_pred_min x : x ≤ INT_MIN → int_pred x = INT_MAX.
Proof.
  intros Hx. unfold int_pred.
  destruct (Z.ltb_spec (x - 1) INT_MIN); [done | lia].
Qed.

Lemma int_sub_eq x y : INT_MIN ≤ x - y ≤ INT_MAX → int_sub x y = x - y.
Proof.
  intros Hxy. unfold int_sub. rewrite Z.gtb_ltb.
  destruct (Z.ltb_spec INT_MAX (x - y)); [lia|].
  destruct (Z.ltb_spec (x - y) INT_MIN); [lia | done].
Qed.

(** The number of elements [maxdex - mindex + 1], when it is an [int]. *)
Lemma int_size lo hi :
  -1 ≤ hi - lo → hi - lo + 1 ≤ INT_MAX →
  int_succ (int_sub hi lo) = hi - lo + 1.
Proof.
  intros H1 H2. rewrite int_sub_eq by (unfold INT_MIN, INT_MAX in *; lia).
  apply int_succ_eq. lia.
Qed.

(** ** Loops *)

Lemma rounds_nat_add {R} (f : Z → M (Z + R)) (n k : nat) i m :
  rounds_nat (n + k) f i m =
  match rounds_nat n f i m with
  | Ok (inl j) m' => rounds_nat k f j m'
  | Ok (inr x) m' => Ok (inr x) m'
  | Throw e m' => Throw e m'
  | Undefined => Undefined
  end.
Proof.
  revert i m. induction n as [|n IH]; intros i m; [done|].
  simpl. unfold mbind, M_bind, bind.
  destruct (f i m) as [[j|x] m'| |]; [apply IH | done..].
Qed.

Lemma rounds_eq {R} (f : Z → M (Z + R)) p i m :
  rounds p f i m = rounds_nat (Pos.to_nat p) f i m.
Proof.
  revert i m. induction p as [p IH|p IH|]; intros i m.
  - rewrite Pos2Nat.inj_xI.
    replace (S (2 * Pos.to_nat p)) with (S (Pos.to_nat p + Pos.to_nat p)) by lia.
    simpl. unfold mbind, M_bind, bind.
    destruct (f i m) as [[j|x] m'| |]; [|done..].
    rewrite rounds_nat_add, IH.
    destruct (rounds_nat (Pos.to_nat p) f j m') as [[k|x] m''| |]; [apply IH | done..].
  - rewrite Pos2Nat.inj_xO.
    replace (2 * Pos.to_nat p)%nat with (Pos.to_nat p + Pos.to_nat p)%nat by lia.
    simpl. unfold mbind, M_bind, bind.
    rewrite rounds_nat_add, IH.
    destruct (rounds_nat (Pos.to_nat p) f i m) as [[k|x] m''| |]; [apply IH | done..].
  - simpl. unfold mbind, M_bind, bind.
    by destruct (f i m) as [[j|x] m'| |].
Qed.

(** A loop that is left, or fails, within [n] rounds has the outcome of
    these rounds. *)
Lemma loop_rounds {R} (f : Z → M (Z + R)) (n : nat) i m :
  Z.of_nat n ≤ 2 ^ 32 + 1 →
  loop f i m =
  match rounds_nat n f i m with
  | Ok (inl j) m' => loop f i m
  | Ok (inr x) m' => Ok x m'
  | Throw e m' => Throw e m'
  | Undefined => Undefined
  end.
Proof.
  intros Hn.
  destruct (rounds_nat n f i m) as [[j|x] m'| |] eqn:Hrun; [done|..].
  all: unfold loop; unfold mbind, M_bind, bind; rewrite rounds_eq.
  all: replace (Pos.to_nat (2 ^ 32 + 1))
         with (n + (Pos.to_nat (2 ^ 32 + 1) - n))%nat
         by (change (2 ^ 32 + 1)%positive with 4294967297%positive; lia).
  all: by rewrite rounds_nat_add, Hrun.
Qed.

Lemma loop_Ok {R} (f : Z → M (Z + R)) (n : nat) i m x m' :
  Z.of_nat n ≤ 2 ^ 32 + 1 →
  rounds_nat n f i m = Ok (inr x) m' →
  loop f i m = Ok x m'.
Proof. intros Hn Hrun. rewrite (loop_rounds f n) by done. by rewrite Hrun. Qed.

Lemma loop_Throw {R} (f : Z → M (Z + R)) (n : nat) i m e m' :
  Z.of_nat n ≤ 2 ^ 32 + 1 →
  rounds_nat n f i m = Throw e m' →
  loop f i m = Throw e m'.
Proof. intros Hn Hrun. rewrite (loop_rounds f n) by done. by rewrite Hrun. Qed.

Lemma loop_Undefined {R} (f : Z → M (Z + R)) (n : nat) i m :
  Z.of_nat n ≤ 2 ^ 32 + 1 →
  rounds_nat n f i m = Undefined →
  loop f i m = Undefined.
Proof. intros Hn Hrun. rewrite (loop_rounds f n) by done. by rewrite Hrun. Qed.

(** Two loops with the same rounds. *)
Lemma rounds_nat_ext {R} (f g : Z → M (Z + R)) (n : nat) i m :
  (∀ j mj, f j mj = g j mj) →
  rounds_nat n f i m = rounds_nat n g i m.
Proof.
  intros Hfg. revert i m. induction n as [|n IH]; intros i m; [done|].
  simpl. unfold mbind, M_bind, bind. rewrite Hfg.
  destruct (g i m) as [[j|x] m'| |]; [apply IH | done..].
Qed.

Lemma loop_ext {R} (f g : Z → M (Z + R)) i m :
  (∀ j mj, f j mj = g j mj) → loop f i m = loop g i m.
Proof.
  intros Hfg. unfold loop, mbind, M_bind, bind.
  by rewrite !rounds_eq, (rounds_nat_ext f g).
Qed.

(** [i < n] is [i <= n - 1]. *)
Lemma for_loop_lt_le i n body m :
  for_loop_lt i n body m = for_loop i (n - 1) body m.
Proof.
  apply loop_ext. intros j mj.
  destruct (Z.ltb_spec j n), (Z.leb_spec j (n - 1)); (done || lia).
Qed.

(** A loop whose condition fails at once. *)
Lemma for_loop_done i hi body m : hi < i → for_loop i hi body m = Ok i m.
Proof.
  intros Hlt. apply (loop_Ok _ 1%nat); [lia|]. simpl.
  destruct (Z.leb_spec i hi); [lia | done].
Qed.

(** The rounds of a [for] loop under an invariant: a body that keeps [P]
    and returns takes the counter from [i] to [i + n], as long as that
    stays within the bound and within the [int]s. *)
Lemma for_rounds (P : Z → mem → Prop) hi body :
  ∀ (n : nat) i m,
    i + Z.of_nat n ≤ hi + 1 →
    i + Z.of_nat n ≤ INT_MAX →
    P i m →
    (∀ j mj, i ≤ j < i + Z.of_nat n → P j mj →
             ∃ m', body j mj = Ok () m' ∧ P (j + 1) m') →
    ∃ m',
      rounds_nat n (λ j, if j <=? hi then body j;; mret (inl (int_succ j))
                         else mret (inr j)) i m
      = Ok (inl (i + Z.of_nat n)) m' ∧
      P (i + Z.of_nat n) m'.
Proof.
  induction n as [|n IH]; intros i m Hhi Hmax HP Hbody.
  - exists m. simpl. replace (i + Z.of_nat 0) with i by lia. done.
  - destruct (Hbody i m) as (m1 & Hrun & HP1); [lia | done |].
    destruct (IH (i + 1) m1) as (m' & Hloop & HP'); [lia | lia | done | |].
    { intros j mj Hj. apply Hbody. lia. }
    exists m'. replace (i + Z.of_nat (S n)) with (i + 1 + Z.of_nat n) by lia. split; [|done].
    simpl. destruct (Z.leb_spec i hi); [|lia].
    erewrite bind_Ok; [|erewrite bind_Ok; [reflexivity | exact Hrun]].
    rewrite int_succ_eq by lia. exact Hloop.
Qed.

(** The invariant rule: below [INT_MAX] the loop is left at [hi + 1]. *)
Lemma for_loop_inv (P : Z → mem → Prop) hi body i m :
  hi < INT_MAX →
  INT_MIN ≤ i ≤ hi + 1 →
  P i m →
  (∀ j mj, i ≤ j ≤ hi → P j mj → ∃ m', body j mj = Ok () m' ∧ P (j + 1) m') →
  ∃ m', for_loop i hi body m = Ok (hi + 1) m' ∧ P (hi + 1) m'.
Proof.
  intros Hhi Hi HP Hbody.
  destruct (for_rounds P hi body (Z.to_nat (hi + 1 - i)) i m)
    as (m' & Hrun & HP'); [lia | lia | done | |].
  { intros j mj Hj. apply Hbody. lia. }
  replace (i + Z.of_nat (Z.to_nat (hi + 1 - i))) with (hi + 1) in * by lia.
  exists m'. split; [|done].
  apply (loop_Ok _ (Z.to_nat (hi + 1 - i) + 1)%nat).
  { unfold INT_MIN, INT_MAX in *. lia. }
  rewrite rounds_nat_add, Hrun. simpl.
  destruct (Z.leb_spec (hi + 1) hi); [lia | done].
Qed.

Lemma load_Undefined m b o i : o + i < 0 → load (Ptr b o) i m = Undefined.
Proof.
  intros Hneg. unfold load, slot.
  destruct (bufs m !! b) as [[xs|]|]; [|done..].
  by destruct (Z.leb_spec 0 (o + i)); [lia|].
Qed.

(** One element copied from a block to another. *)
Lemma copy_body m sb db o fj j xs zs x :
  sb ≠ db →
  bufs m !! sb = Some (Some xs) →
  bufs m !! db = Some (Some zs) →
  0 ≤ o + j < Z.of_nat (length zs) →
  0 ≤ o + fj →
  xs !! Z.to_nat (o + fj) = Some x →
  (x ← load (Ptr sb o) fj; store (Ptr db o) j x) m
  = Ok () (Mem (objs m) (<[db := Some (<[Z.to_nat (o + j) := x]> zs)]> (bufs m))).
Proof.
  intros Hne Hsb Hdb Hj Hfj Hx.
  erewrite bind_Ok; [|by eapply load_Ok].
  by apply store_Ok.
Qed.

(** The rounds of a loop that copies [src[f j]] to [dst[j]], where [f j] is
    [j + s] and the two pointers are in different blocks at the same offset:
    slot [k] of the destination receives slot [k + s] of the source, the
    other slots keep their value. *)
Lemma copy_rounds m sb db o (f : Z → Z) s i hi xs ys (n : nat) :
  sb ≠ db →
  bufs m !! sb = Some (Some xs) →
  bufs m !! db = Some (Some ys) →
  (∀ j, i ≤ j < i + Z.of_nat n → f j = j + s) →
  i + Z.of_nat n ≤ hi + 1 →
  i + Z.of_nat n ≤ INT_MAX →
  0 ≤ o + i → o + i + Z.of_nat n ≤ Z.of_nat (length ys) →
  0 ≤ o + i + s → o + i + Z.of_nat n + s ≤ Z.of_nat (length xs) →
  ∃ ys',
    rounds_nat n
      (λ j, if j <=? hi
            then (x ← load (Ptr sb o) (f j); store (Ptr db o) j x);;
                 mret (inl (int_succ j))
            else mret (inr j)) i m
    = Ok (inl (i + Z.of_nat n)) (Mem (objs m) (<[db := Some ys']> (bufs m))) ∧
    length ys' = length ys ∧
    ∀ k : nat,
      ys' !! k =
      if decide (o + i ≤ Z.of_nat k < o + i + Z.of_nat n)
      then xs !! Z.to_nat (Z.of_nat k + s) else ys !! k.
Proof.
  intros Hne Hsb Hdb Hf Hhi Hmax Hlo Hlen Hslo Hslen.
  pose (P := λ (j : Z) (mj : mem),
    ∃ ys', mj = Mem (objs m) (<[db := Some ys']> (bufs m)) ∧
           length ys' = length ys ∧
           ∀ k : nat, ys' !! k =
             if decide (o + i ≤ Z.of_nat k < o + j)
             then xs !! Z.to_nat (Z.of_nat k + s) else ys !! k).
  assert (Hdblt : (db < length (bufs m))%nat) by (by eapply lookup_lt_Some).
  destruct (for_rounds P hi
              (λ j, x ← load (Ptr sb o) (f j); store (Ptr db o) j x) n i m)
    as (m' & Hrun & ys' & -> & Hlen' & Hys'); [done | done | | |].
  - exists ys. split; [|split; [done|]].
    + destruct m as [ob bf]. simpl in *. by rewrite list_insert_id.
    + intros k. case_decide; [lia | done].
  - intros j mj Hj (zs & -> & Hzlen & Hzs).
    assert (is_Some (xs !! Z.to_nat (o + f j))) as [x Hx].
    { apply lookup_lt_is_Some. rewrite Hf by done. lia. }
    eexists. split.
    + eapply copy_body; [done | | | | |exact Hx].
      * simpl. by rewrite list_lookup_insert_ne.
      * simpl. by rewrite list_lookup_insert_eq.
      * lia.
      * rewrite Hf by done. lia.
    + exists (<[Z.to_nat (o + j) := x]> zs). simpl.
      rewrite list_insert_insert_eq, length_insert.
      split; [done | split; [done|]].
      intros k. destruct (decide (Z.to_nat (o + j) = k)) as [<-|Hk].
      * rewrite list_lookup_insert_eq by lia.
        case_decide; [|lia]. rewrite <- Hx, Hf by done. f_equal. lia.
      * rewrite list_lookup_insert_ne by done. rewrite Hzs.
        repeat case_decide; try done; lia.
  - exists ys'. split; [exact Hrun | split; [done|]].
    intros k. rewrite Hys'. repeat case_decide; try done; lia.
Qed.

(** Below [INT_MAX] the copying loop is left at [hi + 1]. *)
Lemma copy_loop m sb db o (f : Z → Z) s i hi xs ys :
  sb ≠ db →
  bufs m !! sb = Some (Some xs) →
  bufs m !! db = Some (Some ys) →
  (∀ j, i ≤ j ≤ hi → f j = j + s) →
  hi < INT_MAX →
  INT_MIN ≤ i ≤ hi + 1 →
  0 ≤ o + i → o + hi < Z.of_nat (length ys) →
  0 ≤ o + i + s → o + hi + s < Z.of_nat (length xs) →
  ∃ ys',
    for_loop i hi (λ j, x ← load (Ptr sb o) (f j); store (Ptr db o) j x) m
    = Ok (hi + 1) (Mem (objs m) (<[db := Some ys']> (bufs m))) ∧
    length ys' = length ys ∧
    ∀ k : nat,
      ys' !! k =
      if decide (o + i ≤ Z.of_nat k ≤ o + hi)
      then xs !! Z.to_nat (Z.of_nat k + s) else ys !! k.
Proof.
  intros Hne Hsb Hdb Hf Hhi Hi Hlo Hlen Hslo Hslen.
  destruct (copy_rounds m sb db o f s i hi xs ys (Z.to_nat (hi + 1 - i)))
    as (ys' & Hrun & Hlen' & Hys'); try done; try lia.
  { intros j Hj. apply Hf. lia. }
  replace (i + Z.of_nat (Z.to_nat (hi + 1 - i))) with (hi + 1) in * by lia.
  exists ys'. split; [|split; [done|]].
  - apply (loop_Ok _ (Z.to_nat (hi + 1 - i) + 1)%nat).
    { unfold INT_MIN, INT_MAX in *. lia. }
    rewrite rounds_nat_add, Hrun. simpl.
    destruct (Z.leb_spec (hi + 1) hi); [lia | done].
  - intros k. rewrite Hys'. repeat case_decide; try done; lia.
Qed.

(** With the bound [INT_MAX] the copying loop is not left: after the
    element at [INT_MAX] the counter is [INT_MIN] and the condition holds
    again; when [src[f INT_MIN]] lies before the block of the source, the
    next round has no defined behaviour. *)
Lemma copy_loop_overflow m sb db o (f : Z → Z) s i xs ys :
  sb ≠ db →
  bufs m !! sb = Some (Some xs) →
  bufs m !! db = Some (Some ys) →
  (∀ j, i ≤ j ≤ INT_MAX → f j = j + s) →
  INT_MIN ≤ i ≤ INT_MAX →
  0 ≤ o + i → o + INT_MAX < Z.of_nat (length ys) →
  0 ≤ o + i + s → o + INT_MAX + s < Z.of_nat (length xs) →
  o + f INT_MIN < 0 →
  for_loop i INT_MAX (λ j, x ← load (Ptr sb o) (f j); store (Ptr db o) j x) m
  = Undefined.
Proof.
  intros Hne Hsb Hdb Hf Hi Hlo Hlen Hslo Hslen Hout.
  destruct (copy_rounds m sb db o f s i INT_MAX xs ys (Z.to_nat (INT_MAX - i)))
    as (ys' & Hrun & Hlen' & Hys'); try done; try lia.
  { intros j Hj. apply Hf. lia. }
  replace (i + Z.of_nat (Z.to_nat (INT_MAX - i))) with INT_MAX in * by lia.
  assert (Hdblt : (db < length (bufs m))%nat) by (by eapply lookup_lt_Some).
  assert (is_Some (xs !! Z.to_nat (o + f INT_MAX))) as [x Hx].
  { apply lookup_lt_is_Some. rewrite Hf by lia. lia. }
  apply (loop_Undefined _ (Z.to_nat (INT_MAX - i) + 2)%nat).
  { unfold INT_MIN, INT_MAX in *. lia. }
  rewrite rounds_nat_add, Hrun. simpl.
  destruct (Z.leb_spec INT_MAX INT_MAX); [|lia].
  erewrite bind_Ok; last first.
  { erewrite bind_Ok; [reflexivity|].
    eapply copy_body; [done | | | | |exact Hx].
    - simpl. by rewrite list_lookup_insert_ne.
    - simpl. by rewrite list_lookup_insert_eq.
    - lia.
    - rewrite Hf by lia. lia. }
  rewrite int_succ_max by lia.
  destruct (Z.leb_spec INT_MIN INT_MAX) as [_|Hbad];
    [|unfold INT_MIN, INT_MAX in Hbad; lia].
  apply bind_Undefined, bind_Undefined, bind_Undefined.
  by apply load_Undefined.
Qed.

Lemma new_array_Ok n m :
  0 ≤ n →
  new_array n m =
  Ok (Ptr (length (bufs m)) 0)
     (Mem (objs m) (bufs m ++ [Some (replicate (Z.to_nat n) T_default)])).
Proof.
  intros Hn. unfold new_array. destruct (Z.ltb_spec n 0); [lia | done].
Qed.

Lemma delete_array_Ok m b xs :
  bufs m !! b = Some (Some xs) →
  delete_array (Ptr b 0) m = Ok () (Mem (objs m) (<[b := None]> (bufs m))).
Proof. intros Hb. unfold delete_array. simpl. by rewrite Hb. Qed.

Lemma is_array_bounds m this a xs :
  is_array m this a xs → mindex a ≤ maxdex a + 1.
Proof. intros (_ & Hlen & _). lia. Qed.

Ltac mrun := unfold mbind, M_bind, bind, mret, M_ret, ret, throw, set_obj; simpl.

Lemma insert_snoc {A} (bs : list A) (y z : A) :
  <[length bs := z]> (bs ++ [y]) = bs ++ [z].
Proof.
  rewrite insert_app_r_alt by done. by rewrite Nat.sub_diag.
Qed.

Lemma lookup_snoc {A} (bs : list A) (y : A) : (bs ++ [y]) !! length bs = Some y.
Proof. by apply list_lookup_middle. Qed.

Lemma inserted_length lo n t xs : length (inserted lo n t xs) = S (length xs).
Proof.
  unfold inserted. rewrite length_app. simpl.
  rewrite length_take, length_drop. lia.
Qed.

Lemma inserted_lookup lo n t xs (k : nat) :
  0 ≤ n - lo ≤ Z.of_nat (length xs) →
  inserted lo n t xs !! k =
  if decide (Z.of_nat k < n - lo) then xs !! k
  else if decide (Z.of_nat k = n - lo) then Some t
  else xs !! (k - 1)%nat.
Proof.
  intros Hn. unfold inserted.
  assert (length (take (Z.to_nat (n - lo)) xs) = Z.to_nat (n - lo)) as Hlt.
  { rewrite length_take. lia. }
  repeat case_decide.
  - rewrite lookup_app_l by lia. apply lookup_take_lt. lia.
  - apply list_lookup_middle. lia.
  - rewrite lookup_app_r by lia. rewrite Hlt.
    destruct (k - Z.to_nat (n - lo))%nat as [|j] eqn:Hj; [lia|].
    simpl. rewrite lookup_drop. f_equal. lia.
Qed.

Lemma fresh_data_cons m lo xs :
  xs ≠ [] → fresh_data m lo xs = Ptr (length (bufs m)) (- lo).
Proof. by destruct xs. Qed.

Lemma alloc_cons bs xs : xs ≠ [] → alloc bs xs = bs ++ [Some xs].
Proof. by destruct xs. Qed.

Lemma InsertAt_spec m this a xs t n :
  is_array m this a xs →
  INT_MIN ≤ mindex a →
  maxdex a + 1 < INT_MAX →
  maxdex a - mindex a + 1 < INT_MAX →
  mindex a ≤ n ≤ maxdex a + 1 →
  INT_MIN < n →
  InsertAt this t n m =
  Ok n (realloc m this (mindex a) (maxdex a + 1)
          (inserted (mindex a) n t xs) (data a)).
Proof.
  intros (Hobj & Hlen & Hown) Hmin Hmax Hsize Hn Hn'. unfold InsertAt.
  rewrite (bind_Ok _ _ _ _ _ (get_obj_Ok _ _ _ Hobj)).
  rewrite (int_succ_eq (maxdex a)) by lia.
  replace ((mindex a >? n) || (n >? maxdex a + 1)) with false; last first.
  { symmetry. apply orb_false_intro; rewrite Z.gtb_ltb; apply Z.ltb_ge; lia. }
  destruct a as [lo hi d]. simpl in *.
  erewrite bind_Ok; [|reflexivity].
  rewrite int_size, (int_pred_eq n) by lia.
  erewrite bind_Ok; [|apply new_array_Ok; simpl; lia].
  simpl. replace (0 - lo) with (- lo) by lia.
  set (ys := replicate (Z.to_nat (hi + 1 - lo + 1)) T_default).
  assert (Hys : length ys = S (length xs)).
  { subst ys. rewrite length_replicate. lia. }
  unfold realloc. simpl.
  assert (Hins : inserted lo n t xs ≠ []).
  { intros Hnil. apply (f_equal length) in Hnil.
    by rewrite inserted_length in Hnil. }
  destruct d as [|b o]; simpl in Hown.
  - (* no elements: both loops are left at once *)
    subst xs. simpl in Hlen. assert (n = lo) as -> by lia.
    erewrite bind_Ok; [|apply for_loop_done; lia].
    erewrite bind_Ok; last first.
    { eapply store_Ok; simpl; [apply lookup_snoc | lia]. }
    rewrite (int_succ_eq lo) by lia.
    erewrite bind_Ok; [|apply for_loop_done; lia].
    mrun. unfold set_data, set_maxdex. simpl.
    rewrite insert_insert_eq, insert_snoc.
    rewrite fresh_data_cons, alloc_cons by done.
    unfold inserted. replace (lo - lo) with 0 by lia. simpl.
    subst ys. replace (Z.to_nat (hi + 1 - lo + 1)) with 1%nat by lia.
    by replace (- lo + lo) with 0 by lia.
  - destruct Hown as (Hne & -> & Hb).
    assert (Hblt : (b < length (bufs m))%nat) by (by eapply lookup_lt_Some).
    (* the elements below [n] *)
    edestruct (copy_loop
      (Mem (<[this := set_maxdex (mkArray lo hi (Ptr b (- lo))) (hi + 1)]> (objs m))
           (bufs m ++ [Some ys]))
      b (length (bufs m)) (- lo) (λ i, i) 0 lo (n - 1) xs ys) as (ys1 & Hrun1 & Hlen1 & Hys1);
      simpl; try lia.
    { by rewrite lookup_app_l. }
    { apply lookup_snoc. }
    simpl in Hrun1. rewrite insert_snoc in Hrun1.
    rewrite (bind_Ok _ _ _ _ _ Hrun1). clear Hrun1.
    (* the new element *)
    erewrite bind_Ok; last first.
    { eapply store_Ok; simpl; [apply lookup_snoc | lia]. }
    simpl. rewrite insert_snoc.
    set (ys2 := <[Z.to_nat (- lo + (n - 1 + 1)) := t]> ys1).
    rewrite (int_succ_eq (n - 1 + 1)) by lia.
    (* the elements from [n] on, one index up *)
    edestruct (copy_loop
      (Mem (<[this := set_maxdex (mkArray lo hi (Ptr b (- lo))) (hi + 1)]> (objs m))
           (bufs m ++ [Some ys2]))
      b (length (bufs m)) (- lo) int_pred (-1) (n - 1 + 1 + 1) (hi + 1) xs ys2)
      as (ys3 & Hrun3 & Hlen3 & Hys3); simpl; try lia.
    { by rewrite lookup_app_l. }
    { apply lookup_snoc. }
    { intros j Hj. rewrite int_pred_eq; lia. }
    { subst ys2. rewrite length_insert. lia. }
    simpl in Hrun3. rewrite insert_snoc in Hrun3.
    rewrite (bind_Ok _ _ _ _ _ Hrun3). clear Hrun3.
    replace (- lo + lo) with 0 by lia.
    erewrite bind_Ok; last first.
    { eapply delete_array_Ok. simpl. by rewrite lookup_app_l. }
    mrun. unfold set_data, set_maxdex. simpl.
    rewrite insert_insert_eq, insert_app_l by done.
    rewrite fresh_data_cons, alloc_cons by done.
    assert (ys3 = inserted lo n t xs) as ->; [|done].
    apply list_eq. intros k. rewrite Hys3, inserted_lookup by lia.
    subst ys2.
    destruct (decide (Z.of_nat k < n - lo)) as [Hlt|Hge].
    { case_decide; [lia|].
      rewrite list_lookup_insert_ne by lia. rewrite Hys1.
      case_decide; [f_equal; lia | lia]. }
    destruct (decide (Z.of_nat k = n - lo)) as [Heq|Hgt].
    { case_decide; [lia|].
      replace k with (Z.to_nat (- lo + (n - 1 + 1))) by lia.
      apply list_lookup_insert_eq. lia. }
    case_decide; [f_equal; lia|].
    rewrite list_lookup_insert_ne by lia. rewrite Hys1.
    case_decide; [lia|].
    rewrite !lookup_ge_None_2; [done | lia | lia].
Qed.

Lemma range_check_false (lo hi n : Z) :
  lo ≤ n ≤ hi → (n <? lo) || (n >? hi) = false.
Proof.
  intros Hn. apply orb_false_intro; [|rewrite Z.gtb_ltb]; apply Z.ltb_ge; lia.
Qed.

Lemma range_check_true (lo hi n : Z) :
  n < lo ∨ hi < n → (n <? lo) || (n >? hi) = true.
Proof.
  intros Hn. apply orb_true_iff. rewrite Z.gtb_ltb, !Z.ltb_lt. lia.
Qed.

Lemma Remove_spec m this a xs n :
  is_array m this a xs →
  int_array a →
  INT_MIN < maxdex a →
  mindex a ≤ n ≤ maxdex a →
  ∃ x, xs !! Z.to_nat (n - mindex a) = Some x ∧
       Remove this n m =
       Ok x (realloc m this (mindex a) (maxdex a - 1)
               (removed (mindex a) n xs) (data a)).
Proof.
  intros (Hobj & Hlen & Hown) ([Hmin _] & [_ Hmax] & Hsize) Hhi Hn.
  assert (is_Some (xs !! Z.to_nat (n - mindex a))) as [x Hx].
  { apply lookup_lt_is_Some. lia. }
  exists x. split; [done|]. unfold Remove.
  rewrite (bind_Ok _ _ _ _ _ (get_obj_Ok _ _ _ Hobj)).
  rewrite range_check_false by done.
  rewrite (int_pred_eq (maxdex a)) by lia.
  destruct a as [lo hi d]. simpl in *.
  destruct d as [|b o]; simpl in Hown; [by subst xs|].
  destruct Hown as (Hne & -> & Hb).
  assert (Hblt : (b < length (bufs m))%nat) by (by eapply lookup_lt_Some).
  erewrite bind_Ok; last first.
  { eapply load_Ok; [done|lia|]. by replace (- lo + n) with (n - lo) by lia. }
  erewrite bind_Ok; [|reflexivity].
  assert (Hrm : length (removed lo n xs) = (length xs - 1)%nat).
  { unfold removed. by rewrite length_delete. }
  unfold realloc. simpl. replace (- lo + lo) with 0 by lia.
  destruct (Z.geb_spec (hi - 1) lo) as [Hmany|Hone].
  - (* some elements remain *)
    assert (Hrne : removed lo n xs ≠ []).
    { intros Hnil. apply (f_equal length) in Hnil. simpl in Hnil. lia. }
    rewrite int_size by lia.
    erewrite bind_Ok; last first.
    { erewrite bind_Ok; [|apply new_array_Ok; simpl; lia]. reflexivity. }
    simpl. replace (0 - lo) with (- lo) by lia.
    set (ys := replicate (Z.to_nat (hi - 1 - lo + 1)) T_default).
    assert (Hys : length ys = (length xs - 1)%nat).
    { subst ys. rewrite length_replicate. lia. }
    edestruct (copy_loop
      (Mem (<[this := set_maxdex (mkArray lo hi (Ptr b (- lo))) (hi - 1)]> (objs m))
           (bufs m ++ [Some ys]))
      b (length (bufs m)) (- lo) (λ i, i) 0 lo (n - 1) xs ys)
      as (ys1 & Hrun1 & Hlen1 & Hys1); simpl; try lia.
    { by rewrite lookup_app_l. }
    { apply lookup_snoc. }
    simpl in Hrun1. rewrite insert_snoc in Hrun1.
    erewrite bind_Ok; [|rewrite for_loop_lt_le; exact Hrun1]. clear Hrun1.
    edestruct (copy_loop
      (Mem (<[this := set_maxdex (mkArray lo hi (Ptr b (- lo))) (hi - 1)]> (objs m))
           (bufs m ++ [Some ys1]))
      b (length (bufs m)) (- lo) int_succ 1 (n - 1 + 1) (hi - 1) xs ys1)
      as (ys2 & Hrun2 & Hlen2 & Hys2); simpl; try lia.
    { by rewrite lookup_app_l. }
    { apply lookup_snoc. }
    { intros j Hj. rewrite int_succ_eq; lia. }
    simpl in Hrun2. rewrite insert_snoc in Hrun2.
    rewrite (bind_Ok _ _ _ _ _ Hrun2). clear Hrun2.
    erewrite bind_Ok; last first.
    { eapply delete_array_Ok. simpl. by rewrite lookup_app_l. }
    mrun. unfold set_data, set_maxdex. simpl.
    rewrite insert_insert_eq, insert_app_l by done.
    rewrite fresh_data_cons, alloc_cons by done.
    assert (ys2 = removed lo n xs) as ->; [|done].
    apply list_eq. intros k. unfold removed.
    rewrite Hys2, list_lookup_delete.
    case_decide.
    + case_decide; [lia|]. f_equal. lia.
    + rewrite Hys1. case_decide.
      * case_decide; [|lia]. f_equal. lia.
      * case_decide; [lia|]. rewrite !lookup_ge_None_2; [done | lia | lia].
  - (* the last element goes: no block is taken *)
    assert (n = lo) as -> by lia.
    assert (Hnil : removed lo lo xs = []).
    { apply length_zero_iff_nil. lia. }
    rewrite Hnil. simpl.
    erewrite bind_Ok; [|reflexivity].
    erewrite bind_Ok; [|rewrite for_loop_lt_le; apply for_loop_done; lia].
    erewrite bind_Ok; [|apply for_loop_done; lia].
    erewrite bind_Ok; last first.
    { eapply delete_array_Ok. simpl. done. }
    mrun. unfold set_data, set_maxdex. simpl.
    by rewrite insert_insert_eq.
Qed.
(** The checked accesses. *)
Lemma operator_index_Ok m this a i :
  objs m !! this = Some a →
  mindex a ≤ i ≤ maxdex a →
  operator_index this i m = Ok (data a) m.
Proof.
  intros Hobj Hi. unfold operator_index.
  rewrite (bind_Ok _ _ _ _ _ (get_obj_Ok _ _ _ Hobj)).
  by rewrite range_check_false.
Qed.

Lemma operator_index_Throw m this a i :
  objs m !! this = Some a →
  i < mindex a ∨ maxdex a < i →
  operator_index this i m = Throw IndexException m.
Proof.
  intros Hobj Hi. unfold operator_index.
  rewrite (bind_Ok _ _ _ _ _ (get_obj_Ok _ _ _ Hobj)).
  by rewrite range_check_true.
Qed.

Lemma owns_lookup m d lo xs (k : nat) x :
  owns m d lo xs → xs !! k = Some x →
  ∃ b, d = Ptr b (- lo) ∧ bufs m !! b = Some (Some xs).
Proof.
  intros Hown Hx. destruct d as [|b o]; simpl in Hown.
  - by subst xs.
  - destruct Hown as (_ & -> & Hb). eauto.
Qed.

Lemma Get_spec m this a xs i :
  is_array m this a xs →
  mindex a ≤ i ≤ maxdex a →
  ∃ x, xs !! Z.to_nat (i - mindex a) = Some x ∧ Get this i m = Ok x m.
Proof.
  intros (Hobj & Hlen & Hown) Hi.
  assert (is_Some (xs !! Z.to_nat (i - mindex a))) as [x Hx].
  { apply lookup_lt_is_Some. lia. }
  exists x. split; [done|]. unfold Get.
  rewrite (bind_Ok _ _ _ _ _ (operator_index_Ok _ _ _ _ Hobj Hi)).
  destruct (owns_lookup _ _ _ _ _ _ Hown Hx) as (b & -> & Hb).
  eapply load_Ok; [done | lia |].
  by replace (- mindex a + i) with (i - mindex a) by lia.
Qed.

Lemma Get_lookup m this a xs i x :
  is_array m this a xs →
  mindex a ≤ i ≤ maxdex a →
  xs !! Z.to_nat (i - mindex a) = Some x →
  Get this i m = Ok x m.
Proof.
  intros Harr Hi Hx. destruct (Get_spec _ _ _ _ _ Harr Hi) as (y & Hy & ->).
  congruence.
Qed.

Lemma Get_out_of_range m this a i :
  objs m !! this = Some a →
  i < mindex a ∨ maxdex a < i →
  Get this i m = Throw IndexException m.
Proof.
  intros Hobj Hi. unfold Get.
  by rewrite (bind_Throw _ _ _ _ _ (operator_index_Throw _ _ _ _ Hobj Hi)).
Qed.

Lemma Remove_out_of_range m this a n :
  objs m !! this = Some a →
  n < mindex a ∨ maxdex a < n →
  Remove this n m = Throw IndexException m.
Proof.
  intros Hobj Hn. unfold Remove.
  rewrite (bind_Ok _ _ _ _ _ (get_obj_Ok _ _ _ Hobj)).
  by rewrite range_check_true.
Qed.
Lemma Length_spec m this a :
  objs m !! this = Some a →
  Length this m = Ok (int_succ (int_sub (maxdex a) (mindex a))) m.
Proof. intros Hobj. unfold Length. by rewrite (bind_Ok _ _ _ _ _ (get_obj_Ok _ _ _ Hobj)). Qed.

(** The length of a well-formed array with at most [INT_MAX] elements. *)
Lemma Length_is_array m this a xs :
  is_array m this a xs →
  maxdex a - mindex a + 1 ≤ INT_MAX →
  Length this m = Ok (maxdex a - mindex a + 1) m.
Proof.
  intros (Hobj & Hlen & _) Hsize.
  rewrite (Length_spec _ _ _ Hobj), int_size; [done | lia | lia].
Qed.

Lemma First_spec m this a :
  objs m !! this = Some a → First this m = Ok (mindex a) m.
Proof. intros Hobj. unfold First. by rewrite (bind_Ok _ _ _ _ _ (get_obj_Ok _ _ _ Hobj)). Qed.

Lemma Last_spec m this a :
  objs m !! this = Some a → Last this m = Ok (maxdex a) m.
Proof. intros Hobj. unfold Last. by rewrite (bind_Ok _ _ _ _ _ (get_obj_Ok _ _ _ Hobj)). Qed.

(** The memory [realloc] describes holds the array it was made for, and
    every other array whose block is not the one given up. *)
Lemma release_length old (bs : list (option (list T))) :
  length (release old bs) = length bs.
Proof. destruct old; simpl; [done | apply length_insert]. Qed.

Lemma realloc_is_array m this lo hi xs old :
  Z.of_nat (length xs) = hi - lo + 1 →
  is_array (realloc m this lo hi xs old) this
    (mkArray lo hi (fresh_data m lo xs)) xs.
Proof.
  intros Hlen. split; [|split; [done|]]; simpl.
  - apply lookup_insert_eq.
  - destruct xs as [|x xs']; simpl; [done|].
    split; [done | split; [done|]].
    rewrite <- (release_length old). apply lookup_snoc.
Qed.

Lemma realloc_lookup m this lo hi xs old (b : nat) zs :
  bufs m !! b = Some (Some zs) →
  separate (Ptr b 0) old →
  bufs (realloc m this lo hi xs old) !! b = Some (Some zs).
Proof.
  intros Hb Hsep. simpl.
  assert (Hblt : (b < length (bufs m))%nat) by (by eapply lookup_lt_Some).
  assert (release old (bufs m) !! b = Some (Some zs)) as Hrel.
  { destruct old as [|b' o']; simpl in *; [done|].
    by rewrite list_lookup_insert_ne. }
  destruct xs; simpl; [done|]. by apply lookup_app_l_Some.
Qed.

Lemma realloc_frame m this lo hi xs old other c ys :
  is_array m other c ys →
  other ≠ this →
  separate (data c) old →
  is_array (realloc m this lo hi xs old) other c ys.
Proof.
  intros (Hobj & Hlen & Hown) Hne Hsep. split; [|split; [done|]].
  - simpl. by rewrite lookup_insert_ne.
  - destruct (data c) as [|b o]; [done|]. simpl in Hown.
    destruct Hown as (? & -> & Hb). split; [done | split; [done|]].
    eapply realloc_lookup; [done|]. by destruct old.
Qed.

(** A block handed out by [realloc] is none of the blocks in use before. *)
Lemma fresh_data_separate m lo xs c other ys :
  is_array m other c ys → separate (data c) (fresh_data m lo xs).
Proof.
  intros (_ & _ & Hown). destruct (data c) as [|b o]; [done|].
  destruct xs; simpl; [done|]. destruct Hown as (_ & _ & Hb).
  apply lookup_lt_Some in Hb. lia.
Qed.

(** Construction. *)
Lemma Array_lo_hi_spec m this lo hi :
  lo ≤ hi + 1 →
  hi < INT_MAX →
  hi - lo + 1 ≤ INT_MAX →
  Array_lo_hi this lo hi m =
  Ok () (realloc m this lo hi (replicate (Z.to_nat (hi - lo + 1)) T_default) Null).
Proof.
  intros Hle Hhi Hsize. unfold Array_lo_hi, realloc. simpl.
  rewrite (int_succ_eq hi) by done.
  destruct (Z.ltb_spec (hi + 1) lo); [lia|].
  destruct (Z.geb_spec hi lo) as [Hsome|Hnone].
  - rewrite int_size by lia.
    erewrite bind_Ok; last first.
    { erewrite bind_Ok; [|apply new_array_Ok; lia]. reflexivity. }
    mrun. replace (0 - lo) with (- lo) by lia.
    rewrite fresh_data_cons, alloc_cons; [done| |].
    all: intros Hnil; apply (f_equal length) in Hnil;
      rewrite length_replicate in Hnil; simpl in Hnil; lia.
  - mrun. by replace (Z.to_nat (hi - lo + 1)) with O by lia.
Qed.

Lemma Array_lo_hi_Throw m this lo hi :
  hi + 1 < lo → Array_lo_hi this lo hi m = Throw RangeException m.
Proof.
  intros Hlt. unfold Array_lo_hi. pose proof (int_succ_le hi).
  destruct (Z.ltb_spec (int_succ hi) lo); [done | lia].
Qed.

Lemma Array_copy_spec m this other a xs :
  is_array m other a xs →
  INT_MIN ≤ mindex a →
  maxdex a < INT_MAX →
  maxdex a - mindex a + 1 ≤ INT_MAX →
  Array_copy this other m =
  Ok () (realloc m this (mindex a) (maxdex a) xs Null).
Proof.
  intros (Hobj & Hlen & Hown) Hmin Hmax Hsize. unfold Array_copy, realloc.
  rewrite (bind_Ok _ _ _ _ _ (get_obj_Ok _ _ _ Hobj)).
  destruct a as [lo hi d]. simpl in *.
  destruct (Z.geb_spec hi lo) as [Hsome|Hnone].
  - destruct d as [|b o]; simpl in Hown; [subst xs; simpl in Hlen; lia|].
    destruct Hown as (Hne & -> & Hb).
    assert (Hblt : (b < length (bufs m))%nat) by (by eapply lookup_lt_Some).
    rewrite int_size by lia.
    erewrite bind_Ok; last first.
    { erewrite bind_Ok; [|apply new_array_Ok; lia]. reflexivity. }
    simpl. replace (0 - lo) with (- lo) by lia.
    set (ys := replicate (Z.to_nat (hi - lo + 1)) T_default).
    assert (Hys : length ys = length xs).
    { subst ys. rewrite length_replicate. lia. }
    edestruct (copy_loop (Mem (objs m) (bufs m ++ [Some ys]))
      b (length (bufs m)) (- lo) (λ i, i) 0 lo hi xs ys)
      as (ys1 & Hrun1 & Hlen1 & Hys1); simpl; try lia.
    { by rewrite lookup_app_l. }
    { apply lookup_snoc. }
    simpl in Hrun1. rewrite insert_snoc in Hrun1.
    rewrite (bind_Ok _ _ _ _ _ Hrun1). clear Hrun1.
    mrun. rewrite fresh_data_cons, alloc_cons by done.
    assert (ys1 = xs) as ->; [|done].
    apply list_eq. intros k. rewrite Hys1. case_decide.
    + f_equal. lia.
    + rewrite !lookup_ge_None_2; [done | lia | lia].
  - assert (xs = []) as ->. { apply length_zero_iff_nil. lia. }
    erewrite bind_Ok; [|reflexivity].
    erewrite bind_Ok; [|apply for_loop_done; lia].
    by mrun.
Qed.

(** Search: the rounds of the loop of [Find] from [i], one more than the
    indices from [i] to [hi]. *)
Lemma find_rounds m b lo hi xs t :
  bufs m !! b = Some (Some xs) →
  Z.of_nat (length xs) = hi - lo + 1 →
  hi < INT_MAX →
  ∀ (n : nat) i,
    Z.of_nat n = hi + 1 - i →
    lo ≤ i →
    ∃ r, rounds_nat (S n)
           (λ j, if j <=? hi then
                   x ← load (Ptr b (- lo)) j;
                   if T_neq x t then mret (inl (int_succ j)) else mret (inr j)
                 else mret (inr j)) i m = Ok (inr r) m ∧
         i ≤ r ≤ hi + 1 ∧
         (∀ j x, i ≤ j < r → xs !! Z.to_nat (j - lo) = Some x → T_neq x t = true) ∧
         (r ≤ hi → ∃ x, xs !! Z.to_nat (r - lo) = Some x ∧ T_neq x t = false).
Proof.
  intros Hb Hlen Hhi. induction n as [|n IH]; intros i Hn Hi.
  - exists i. simpl. destruct (Z.leb_spec i hi); [lia|].
    split; [done|]. split; [lia|]. split; intros; lia.
  - cbn [rounds_nat]. destruct (Z.leb_spec i hi); [|lia].
    assert (is_Some (xs !! Z.to_nat (i - lo))) as [x Hx].
    { apply lookup_lt_is_Some. lia. }
    assert (Hload : load (Ptr b (- lo)) i m = Ok x m).
    { eapply load_Ok; [done | lia |]. by replace (- lo + i) with (i - lo) by lia. }
    destruct (T_neq x t) eqn:Hneq.
    + destruct (IH (i + 1)) as (r & Hrun & Hr & Hbelow & Hat); [lia | lia |].
      exists r. split; [|split; [lia|split; [|done]]].
      * erewrite bind_Ok; last first.
        { erewrite bind_Ok; [|exact Hload]. rewrite Hneq. reflexivity. }
        rewrite int_succ_eq by lia. exact Hrun.
      * intros j y Hj Hy. destruct (decide (j = i)) as [->|].
        -- congruence.
        -- apply (Hbelow j); [lia | done].
    + exists i. split; [|split; [lia|split; [intros; lia|]]].
      * erewrite bind_Ok; last first.
        { erewrite bind_Ok; [|exact Hload]. rewrite Hneq. reflexivity. }
        done.
      * intros _. eauto.
Qed.

Lemma Find_spec m this a xs t :
  is_array m this a xs →
  INT_MIN < mindex a →
  maxdex a < INT_MAX →
  ∃ r, Find this t m = Ok r m ∧
       (∀ j x, mindex a ≤ j ≤ maxdex a → (r = mindex a - 1 ∨ j < r) →
               xs !! Z.to_nat (j - mindex a) = Some x → T_neq x t = true) ∧
       (r = mindex a - 1 ∨
        mindex a ≤ r ≤ maxdex a ∧
        ∃ x, xs !! Z.to_nat (r - mindex a) = Some x ∧ T_neq x t = false).
Proof.
  intros (Hobj & Hlen & Hown) Hmin Hmax. unfold Find, find_loop.
  rewrite (bind_Ok _ _ _ _ _ (get_obj_Ok _ _ _ Hobj)).
  rewrite (int_pred_eq (mindex a)) by done.
  destruct a as [lo hi d]. simpl in *.
  destruct d as [|b o]; simpl in Hown.
  - subst xs. simpl in Hlen.
    erewrite bind_Ok; last first.
    { apply (loop_Ok _ 1%nat); [lia|]. simpl.
      destruct (Z.leb_spec lo hi); [lia | done]. }
    mrun. destruct (Z.leb_spec lo hi); [lia|].
    exists (lo - 1). split; [done|]. split; [intros; lia | by left].
  - destruct Hown as (Hne & -> & Hb).
    destruct (find_rounds m b lo hi xs t Hb Hlen Hmax
                (Z.to_nat (hi + 1 - lo)) lo) as (r & Hrun & Hr & Hbelow & Hat);
      [lia | lia |].
    erewrite bind_Ok; last first.
    { apply (loop_Ok _ (S (Z.to_nat (hi + 1 - lo)))); [|exact Hrun].
      unfold INT_MIN, INT_MAX in *. lia. }
    mrun.
    destruct (Z.leb_spec r hi) as [Hfound|Hnot].
    + exists r. split; [done|]. split.
      * intros j x Hj [?|Hlt] Hx; [lia|]. apply (Hbelow j); [lia | done].
      * right. split; [lia | by apply Hat].
    + exists (lo - 1). split; [done|]. split; [|by left].
      intros j x Hj _ Hx. apply (Hbelow j); [lia | done].
Qed.

(** Comparison: the rounds of the loop of [operator==] from [i]. *)
Lemma eq_rounds m this other a b xs ys :
  is_array m this a xs →
  is_array m other b ys →
  mindex a = mindex b → maxdex a = maxdex b →
  maxdex a < INT_MAX →
  ∀ (n : nat) i,
    Z.of_nat n = maxdex a + 1 - i →
    mindex a ≤ i →
    rounds_nat (S n)
      (λ j, if j <=? maxdex a then
              x ← Get this j;
              y ← Get other j;
              if T_neq x y then mret (inr false) else mret (inl (int_succ j))
            else mret (inr true)) i m =
    Ok (inr (same_elements (drop (Z.to_nat (i - mindex a)) xs)
                           (drop (Z.to_nat (i - mindex a)) ys))) m.
Proof.
  intros Ha Hb Hlo Hhi Hmax. induction n as [|n IH]; intros i Hn Hi.
  - simpl. destruct (Z.leb_spec i (maxdex a)); [lia|].
    rewrite drop_ge; [done|]. destruct Ha as (_ & Hlen & _). lia.
  - cbn [rounds_nat]. destruct (Z.leb_spec i (maxdex a)); [|lia].
    destruct (Get_spec _ _ _ _ i Ha) as (x & Hx & Hrunx); [lia|].
    destruct (Get_spec _ _ _ _ i Hb) as (y & Hy & Hruny); [lia|].
    rewrite <- Hlo in Hy.
    rewrite (drop_S xs x _ Hx), (drop_S ys y _ Hy).
    assert (Hcons : ∀ xs' ys', same_elements (x :: xs') (y :: ys')
                               = negb (T_neq x y) && same_elements xs' ys')
      by reflexivity.
    rewrite Hcons.
    destruct (T_neq x y) eqn:Hneq.
    all: erewrite bind_Ok;
      [|erewrite bind_Ok; [|exact Hrunx]; erewrite bind_Ok; [|exact Hruny];
        rewrite Hneq; reflexivity].
    { done. }
    rewrite int_succ_eq by lia.
    etransitivity; [apply (IH (i + 1)); lia|].
    simpl. do 4 f_equal; lia.
Qed.

Lemma operator_eq_spec m this other a b xs ys :
  is_array m this a xs →
  is_array m other b ys →
  INT_MIN ≤ mindex a →
  maxdex a < INT_MAX →
  operator_eq this other m =
  Ok ((mindex a =? mindex b) && (maxdex a =? maxdex b) && same_elements xs ys) m.
Proof.
  intros Ha Hb Hmin Hmax. unfold operator_eq.
  rewrite (bind_Ok _ _ _ _ _ (get_obj_Ok _ _ _ (proj1 Ha))).
  rewrite (bind_Ok _ _ _ _ _ (get_obj_Ok _ _ _ (proj1 Hb))).
  destruct (Z.eqb_spec (mindex a) (mindex b)) as [Hlo|]; simpl; [|done].
  destruct (Z.eqb_spec (maxdex a) (maxdex b)) as [Hhi|]; simpl; [|done].
  pose proof (is_array_bounds _ _ _ _ Ha). unfold eq_loop.
  apply (loop_Ok _ (S (Z.to_nat (maxdex a + 1 - mindex a)))).
  { unfold INT_MIN, INT_MAX in *. lia. }
  rewrite (eq_rounds m this other a b xs ys) by (done || lia).
  by replace (Z.to_nat (mindex a - mindex a)) with O by lia.
Qed.

Lemma same_elements_refl xs :
  (∀ x, T_neq x x = false) → same_elements xs xs = true.
Proof.
  intros Hirr. unfold same_elements. induction xs as [|x xs IH]; simpl; [done|].
  by rewrite Hirr, IH.
Qed.

(** Assignment. *)
Lemma insert_snoc_at {A} (bs : list A) (y z : A) (n : nat) :
  n = length bs → <[n := z]> (bs ++ [y]) = bs ++ [z].
Proof. intros ->. apply insert_snoc. Qed.

Lemma owns_Ptr_length m b o lo xs :
  owns m (Ptr b o) lo xs → (0 < length xs)%nat.
Proof. intros (Hne & _). destruct xs; [done | simpl; lia]. Qed.

Lemma assign_reuse m this other a b xs ys blk o :
  is_array m this a xs →
  is_array m other b ys →
  this ≠ other →
  separate (data a) (data b) →
  data a = Ptr blk o →
  mindex a = mindex b → maxdex a = maxdex b →
  INT_MIN ≤ mindex b →
  maxdex b < INT_MAX →
  operator_assign this other m = Ok this (Mem (objs m) (<[blk := Some ys]> (bufs m))).
Proof.
  intros (Ha & Hlena & Howna) (Hb & Hlenb & Hownb) Hne Hsep Hd Hlo Hhi Hmin Hmax.
  unfold operator_assign. rewrite bool_decide_true by done.
  destruct a as [lo hi d], b as [lo' hi' d']. simpl in *. subst d lo' hi'.
  pose proof (owns_Ptr_length _ _ _ _ _ Howna) as Hpos.
  destruct Howna as (_ & -> & Hblk).
  destruct d' as [|bb o']; simpl in Hownb; [subst ys; simpl in *; lia|].
  destruct Hownb as (_ & -> & Hbb).
  edestruct (copy_loop m bb blk (- lo) (λ i, i) 0 lo hi ys xs)
    as (ys1 & Hrun1 & Hlen1 & Hys1); simpl; try done; try lia.
  assert (ys1 = ys) as ->.
  { apply list_eq. intros k. rewrite Hys1. case_decide.
    - f_equal. lia.
    - rewrite !lookup_ge_None_2; [done | lia | lia]. }
  erewrite bind_Ok; [by mrun|].
  erewrite bind_Ok; [|by apply get_obj_Ok].
  erewrite bind_Ok; [|by apply get_obj_Ok].
  simpl. rewrite !Z.eqb_refl. simpl.
  erewrite bind_Ok; [|reflexivity].
  erewrite bind_Ok; [|by apply get_obj_Ok].
  simpl. erewrite bind_Ok; [|exact Hrun1]. by mrun.
Qed.

Lemma assign_realloc m this other a b xs ys :
  is_array m this a xs →
  is_array m other b ys →
  this ≠ other →
  separate (data a) (data b) →
  data a = Null ∨ mindex a ≠ mindex b ∨ maxdex a ≠ maxdex b →
  INT_MIN ≤ mindex b →
  maxdex b < INT_MAX →
  maxdex b - mindex b + 1 ≤ INT_MAX →
  operator_assign this other m =
  Ok this (realloc m this (mindex b) (maxdex b) ys (data a)).
Proof.
  intros (Ha & Hlena & Howna) (Hb & Hlenb & Hownb) Hne Hsep Hshape Hmin Hmax Hsize.
  unfold operator_assign. rewrite bool_decide_true by done.
  destruct a as [lo hi d], b as [lo' hi' d']. simpl in *.
  assert (Hcond : is_null d
            || negb (is_null d) && (negb (lo =? lo') || negb (hi =? hi')) = true).
  { destruct d; [done|]. simpl.
    destruct (Z.eqb_spec lo lo'), (Z.eqb_spec hi hi'); simpl; try done.
    by destruct Hshape as [?|[?|?]]. }
  assert (Hdel : (if negb (is_null d) then delete_array (ptr_add d lo) else mret ()) m
                 = Ok () (Mem (objs m) (release d (bufs m)))).
  { destruct d as [|ba o]; simpl; [by destruct m|].
    destruct Howna as (_ & -> & Hba). replace (- lo + lo) with 0 by lia.
    by eapply delete_array_Ok. }
  assert (Hrun : ∃ m', 
    (get_obj this ≫= λ me, get_obj other ≫= λ a,
       (if is_null (data me)
           || negb (is_null (data me))
              && (negb (mindex me =? mindex a) || negb (maxdex me =? maxdex a))
        then
          (if negb (is_null (data me))
           then delete_array (ptr_add (data me) (mindex me)) else mret ());;
          p ← (if maxdex a >=? mindex a
               then p ← new_array (int_succ (int_sub (maxdex a) (mindex a)));
                    mret (ptr_sub p (mindex a))
               else mret Null);
          set_obj this (mkArray (mindex a) (maxdex a) p)
        else mret ());;
       me0 ← get_obj this;
       _ ← for_loop (mindex me0) (maxdex me0)
             (λ i, x ← load (data a) i; store (data me0) i x);
       mret ()) m = Ok () m' ∧
    m' = realloc m this lo' hi' ys d).
  { erewrite bind_Ok; [|by apply get_obj_Ok].
    erewrite bind_Ok; [|by apply get_obj_Ok].
    simpl. rewrite Hcond.
    destruct (Z.geb_spec hi' lo') as [Hsome|Hnone].
    - destruct d' as [|bb o']; simpl in Hownb; [subst ys; simpl in *; lia|].
      destruct Hownb as (Hnil & -> & Hbb).
      assert (Hbblt : (bb < length (bufs m))%nat) by (by eapply lookup_lt_Some).
      set (zs := replicate (Z.to_nat (hi' - lo' + 1)) T_default).
      assert (Hzs : length zs = length ys).
      { subst zs. rewrite length_replicate. lia. }
      rewrite int_size by lia.
      erewrite bind_Ok; last first.
      { erewrite bind_Ok; [|exact Hdel].
        erewrite bind_Ok; last first.
        { erewrite bind_Ok; [|apply new_array_Ok; lia]. reflexivity. }
        reflexivity. }
      simpl. rewrite release_length. replace (0 - lo') with (- lo') by lia.
      erewrite bind_Ok; [|apply get_obj_Ok; simpl; apply lookup_insert_eq].
      simpl.
      assert (Hrel : release d (bufs m) !! bb = Some (Some ys)).
      { destruct d as [|ba o]; simpl in *; [done|].
        by rewrite list_lookup_insert_ne. }
      edestruct (copy_loop
        (Mem (<[this := mkArray lo' hi' (Ptr (length (bufs m)) (- lo'))]> (objs m))
             (release d (bufs m) ++ [Some zs]))
        bb (length (bufs m)) (- lo') (λ i, i) 0 lo' hi' ys zs)
        as (ys1 & Hrun1 & Hlen1 & Hys1); simpl; try lia.
      { by apply lookup_app_l_Some. }
      { rewrite <- (release_length d). apply lookup_snoc. }
      simpl in Hrun1.
      rewrite insert_snoc_at in Hrun1 by (by rewrite release_length).
      erewrite bind_Ok; [|exact Hrun1].
      eexists. split; [by mrun|]. unfold realloc.
      rewrite fresh_data_cons, alloc_cons by done.
      assert (ys1 = ys) as ->; [|done].
      apply list_eq. intros k. rewrite Hys1. case_decide.
      + f_equal. lia.
      + rewrite !lookup_ge_None_2; [done | lia | lia].
    - assert (ys = []) as ->. { apply length_zero_iff_nil. lia. }
      erewrite bind_Ok; last first.
      { erewrite bind_Ok; [|exact Hdel]. reflexivity. }
      simpl.
      erewrite bind_Ok; [|apply get_obj_Ok; simpl; apply lookup_insert_eq].
      simpl. erewrite bind_Ok; [|apply for_loop_done; lia].
      eexists. split; [by mrun | done]. }
  destruct Hrun as (m' & Hrun & ->).
  erewrite bind_Ok; [|exact Hrun]. done.
Qed.

(** Insertion through the two public entry points. *)
Lemma Append_spec m this a xs v :
  is_array m this a xs →
  is_int (mindex a) → is_int (maxdex a) →
  maxdex a + 1 < INT_MAX →
  maxdex a - mindex a + 1 < INT_MAX →
  Append this v m =
  Ok (maxdex a + 1)
     (realloc m this (mindex a) (maxdex a + 1)
        (inserted (mindex a) (maxdex a + 1) v xs) (data a)).
Proof.
  intros Ha [Hmin _] [Hmin' _] Hmax Hsize.
  pose proof (is_array_bounds _ _ _ _ Ha). unfold Append.
  rewrite (bind_Ok _ _ _ _ _ (get_obj_Ok _ _ _ (proj1 Ha))).
  rewrite int_succ_eq by lia.
  apply InsertAt_spec; (done || lia).
Qed.

(** The position [Insert] resolves [n] to. *)
Lemma Insert_position lo hi n :
  lo ≤ hi + 1 → hi < INT_MAX →
  (if n <? lo then lo else if n >? int_succ hi then int_succ hi else n)
  = clamp lo hi n.
Proof.
  intros Hle Hhi. rewrite int_succ_eq by done.
  unfold clamp. destruct (Z.ltb_spec n lo); [lia|].
  rewrite Z.gtb_ltb. destruct (Z.ltb_spec (hi + 1) n); lia.
Qed.

Lemma Insert_spec m this a xs v n :
  is_array m this a xs →
  is_int (mindex a) →
  maxdex a + 1 < INT_MAX →
  maxdex a - mindex a + 1 < INT_MAX →
  INT_MIN < clamp (mindex a) (maxdex a) n →
  Insert this v n m =
  Ok (clamp (mindex a) (maxdex a) n)
     (realloc m this (mindex a) (maxdex a + 1)
        (inserted (mindex a) (clamp (mindex a) (maxdex a) n) v xs) (data a)).
Proof.
  intros Ha [Hmin _] Hmax Hsize Hpos.
  pose proof (is_array_bounds _ _ _ _ Ha). unfold Insert.
  rewrite (bind_Ok _ _ _ _ _ (get_obj_Ok _ _ _ (proj1 Ha))).
  rewrite Insert_position by lia.
  apply InsertAt_spec; try done. unfold clamp. lia.
Qed.
Lemma realloc_Get m this lo hi xs old i x :
  Z.of_nat (length xs) = hi - lo + 1 →
  lo ≤ i ≤ hi →
  xs !! Z.to_nat (i - lo) = Some x →
  Get this i (realloc m this lo hi xs old) = Ok x (realloc m this lo hi xs old).
Proof.
  intros Hlen Hi Hx.
  by eapply Get_lookup; [by apply realloc_is_array | |].
Qed.

Lemma realloc_obj m this lo hi xs old :
  objs (realloc m this lo hi xs old) !! this
  = Some (mkArray lo hi (fresh_data m lo xs)).
Proof. apply lookup_insert_eq. Qed.


(** The remaining members: [Array(len)], writing through [operator[]],
    [operator!=] and the destructor. *)
Lemma Array_len_spec m this (len : N) :
  (len < 2 ^ 31)%N →
  Array_len this len m =
  Ok () (realloc m this 1 (Z.of_N len)
           (replicate (N.to_nat len) T_default) Null).
Proof.
  intros Hlen. unfold Array_len, realloc, int_of_unsigned. simpl.
  destruct (N.ltb_spec len (2 ^ 31)); [|lia].
  destruct (N.eqb_spec len 0) as [->|Hpos].
  - by mrun.
  - erewrite bind_Ok; last first.
    { erewrite bind_Ok; [|apply new_array_Ok; lia]. reflexivity. }
    mrun. replace (Z.to_nat (Z.of_N len)) with (N.to_nat len) by lia.
    rewrite fresh_data_cons, alloc_cons; [done| |].
    all: intros Hnil; apply (f_equal length) in Hnil;
      rewrite length_replicate in Hnil; simpl in Hnil; lia.
Qed.

Lemma Put_spec m this a xs i x :
  is_array m this a xs →
  mindex a ≤ i ≤ maxdex a →
  ∃ m', Put this i x m = Ok () m' ∧
        is_array m' this a (<[Z.to_nat (i - mindex a) := x]> xs).
Proof.
  intros (Hobj & Hlen & Hown) Hi. unfold Put.
  rewrite (bind_Ok _ _ _ _ _ (operator_index_Ok _ _ _ _ Hobj Hi)).
  assert (is_Some (xs !! Z.to_nat (i - mindex a))) as [y Hy].
  { apply lookup_lt_is_Some. lia. }
  destruct (owns_lookup _ _ _ _ _ _ Hown Hy) as (b & Hd & Hb).
  assert (Hblt : (b < length (bufs m))%nat) by (by eapply lookup_lt_Some).
  rewrite Hd in *. eexists. split; [apply (store_Ok _ _ _ _ xs); [done | lia]|].
  split; [done|]. rewrite length_insert. split; [done|]. rewrite Hd. simpl.
  split; [|split; [done|]].
  - intros Hnil. apply (f_equal length) in Hnil.
    rewrite length_insert in Hnil. simpl in Hnil. lia.
  - rewrite list_lookup_insert_eq by done.
    by replace (- mindex a + i) with (i - mindex a) by lia.
Qed.

Lemma operator_ne_spec m this other a b xs ys :
  is_array m this a xs →
  is_array m other b ys →
  INT_MIN ≤ mindex a →
  maxdex a < INT_MAX →
  operator_ne this other m =
  Ok (negb ((mindex a =? mindex b) && (maxdex a =? maxdex b)
            && same_elements xs ys)) m.
Proof.
  intros Ha Hb Hmin Hmax. unfold operator_ne.
  by rewrite (bind_Ok _ _ _ _ _ (operator_eq_spec _ _ _ _ _ _ _ Ha Hb Hmin Hmax)).
Qed.

Lemma Array_destroy_spec m this a xs :
  is_array m this a xs →
  Array_destroy this m =
  Ok () (Mem (delete this (objs m)) (release (data a) (bufs m))).
Proof.
  intros (Hobj & Hlen & Hown). unfold Array_destroy.
  rewrite (bind_Ok _ _ _ _ _ (get_obj_Ok _ _ _ Hobj)).
  destruct (data a) as [|b o]; simpl in *.
  - subst xs. simpl in Hlen.
    destruct (Z.geb_spec (maxdex a) (mindex a)); [lia|]. by mrun.
  - pose proof (owns_Ptr_length _ _ _ _ _ Hown) as Hpos.
    destruct Hown as (_ & -> & Hb).
    destruct (Z.geb_spec (maxdex a) (mindex a)); [|lia].
    replace (- mindex a + mindex a) with 0 by lia.
    by erewrite bind_Ok; [|by eapply delete_array_Ok].
Qed.

(** ** Where the arithmetic on [int] leaves the range *)

(** An array with [INT_MAX] elements cannot take one more: the number of
    elements of the new block, [maxdex - mindex + 1], comes out as [INT_MIN],
    and [new T[...]] of a negative number has no defined behaviour. *)
Lemma InsertAt_too_long m this a t n :
  objs m !! this = Some a →
  maxdex a + 1 < INT_MAX →
  maxdex a - mindex a + 1 = INT_MAX →
  mindex a ≤ n ≤ maxdex a + 1 →
  InsertAt this t n m = Undefined.
Proof.
  intros Hobj Hmax Hsize Hn. unfold InsertAt.
  rewrite (bind_Ok _ _ _ _ _ (get_obj_Ok _ _ _ Hobj)).
  rewrite (int_succ_eq (maxdex a)) by lia.
  replace ((mindex a >? n) || (n >? maxdex a + 1)) with false; last first.
  { symmetry. apply orb_false_intro; rewrite Z.gtb_ltb; apply Z.ltb_ge; lia. }
  destruct a as [lo hi d]. simpl in *.
  erewrite bind_Ok; [|reflexivity].
  apply bind_Undefined. simpl.
  rewrite int_sub_eq by (unfold INT_MIN, INT_MAX in *; lia).
  replace (hi + 1 - lo) with INT_MAX by lia.
  rewrite int_succ_max by lia. reflexivity.
Qed.

Lemma Append_too_long m this a v :
  objs m !! this = Some a →
  maxdex a + 1 < INT_MAX →
  maxdex a - mindex a + 1 = INT_MAX →
  Append this v m = Undefined.
Proof.
  intros Hobj Hmax Hsize. unfold Append.
  rewrite (bind_Ok _ _ _ _ _ (get_obj_Ok _ _ _ Hobj)).
  rewrite int_succ_eq by lia.
  eapply InsertAt_too_long; [done | done | done |].
  unfold INT_MAX in *. lia.
Qed.

Lemma Insert_too_long m this a v n :
  objs m !! this = Some a →
  maxdex a + 1 < INT_MAX →
  maxdex a - mindex a + 1 = INT_MAX →
  Insert this v n m = Undefined.
Proof.
  intros Hobj Hmax Hsize. unfold Insert.
  rewrite (bind_Ok _ _ _ _ _ (get_obj_Ok _ _ _ Hobj)).
  rewrite Insert_position by (unfold INT_MAX in *; lia).
  eapply InsertAt_too_long; [done | done | done |].
  unfold clamp, INT_MAX in *. lia.
Qed.


(** The rounds of the loop of [Find] over elements that all differ from
    [t]. *)
Lemma find_rounds_differ m b lo hi xs t :
  bufs m !! b = Some (Some xs) →
  (∀ x, x ∈ xs → T_neq x t = true) →
  ∀ (n : nat) i,
    0 ≤ i - lo →
    i - lo + Z.of_nat n ≤ Z.of_nat (length xs) →
    i + Z.of_nat n ≤ hi + 1 →
    i + Z.of_nat n ≤ INT_MAX →
    rounds_nat n
      (λ j, if j <=? hi then
              x ← load (Ptr b (- lo)) j;
              if T_neq x t then mret (inl (int_succ j)) else mret (inr j)
            else mret (inr j)) i m = Ok (inl (i + Z.of_nat n)) m.
Proof.
  intros Hb Hall. induction n as [|n IH]; intros i Hlo Hlen Hhi Hmax.
  - simpl. by replace (i + Z.of_nat 0) with i by lia.
  - cbn [rounds_nat]. destruct (Z.leb_spec i hi); [|lia].
    assert (is_Some (xs !! Z.to_nat (i - lo))) as [x Hx].
    { apply lookup_lt_is_Some. lia. }
    erewrite bind_Ok; last first.
    { erewrite bind_Ok; last first.
      { eapply load_Ok; [done | lia |]. by replace (- lo + i) with (i - lo) by lia. }
      rewrite (Hall x) by (by eapply list_elem_of_lookup_2). reflexivity. }
    rewrite int_succ_eq by lia.
    etransitivity; [apply (IH (i + 1)); lia|].
    do 2 f_equal. lia.
Qed.

(** [Find] on an array whose last index is [INT_MAX], for a value that no
    element equals: after the element at [INT_MAX] the counter is [INT_MIN],
    the condition of the loop holds again, and [data[INT_MIN]] is read, which
    lies before the block. *)
Lemma Find_overflow m this a xs t :
  is_array m this a xs →
  INT_MIN < mindex a →
  mindex a ≤ maxdex a →
  maxdex a = INT_MAX →
  (∀ x, x ∈ xs → T_neq x t = true) →
  Find this t m = Undefined.
Proof.
  intros (Hobj & Hlen & Hown) Hmin Hne Hmax Hall. unfold Find, find_loop.
  rewrite (bind_Ok _ _ _ _ _ (get_obj_Ok _ _ _ Hobj)).
  destruct a as [lo hi d]. simpl in *. subst hi.
  destruct d as [|b o]; simpl in Hown; [subst xs; simpl in Hlen; lia|].
  destruct Hown as (_ & -> & Hb).
  apply bind_Undefined.
  apply (loop_Undefined _ (Z.to_nat (INT_MAX - lo) + 2)%nat).
  { unfold INT_MIN, INT_MAX in *. lia. }
  rewrite rounds_nat_add.
  rewrite (find_rounds_differ m b lo INT_MAX xs t Hb Hall) by lia.
  replace (lo + Z.of_nat (Z.to_nat (INT_MAX - lo))) with INT_MAX by lia.
  assert (is_Some (xs !! Z.to_nat (INT_MAX - lo))) as [x Hx].
  { apply lookup_lt_is_Some. lia. }
  cbn [rounds_nat]. destruct (Z.leb_spec INT_MAX INT_MAX); [|lia].
  erewrite bind_Ok; last first.
  { erewrite bind_Ok; last first.
    { eapply load_Ok; [done | lia |].
      by replace (- lo + INT_MAX) with (INT_MAX - lo) by lia. }
    rewrite (Hall x) by (by eapply list_elem_of_lookup_2). reflexivity. }
  rewrite int_succ_max by lia.
  destruct (Z.leb_spec INT_MIN INT_MAX) as [_|Hbad];
    [|unfold INT_MIN, INT_MAX in Hbad; lia].
  apply bind_Undefined, bind_Undefined. apply load_Undefined. lia.
Qed.

(** [a = b] between two arrays with the same bounds whose last index is
    [INT_MAX]: the loop that copies the elements is not left at [INT_MAX]. *)
Lemma assign_overflow m this other a b xs ys blk o :
  is_array m this a xs →
  is_array m other b ys →
  this ≠ other →
  separate (data a) (data b) →
  data a = Ptr blk o →
  mindex a = mindex b → maxdex a = maxdex b →
  INT_MIN < mindex b →
  maxdex b = INT_MAX →
  operator_assign this other m = Undefined.
Proof.
  intros (Ha & Hlena & Howna) (Hb & Hlenb & Hownb) Hne Hsep Hd Hlo Hhi Hmin Hmax.
  unfold operator_assign. rewrite bool_decide_true by done.
  destruct a as [lo hi d], b as [lo' hi' d']. simpl in *. subst d lo' hi' hi.
  pose proof (owns_Ptr_length _ _ _ _ _ Howna) as Hpos.
  destruct Howna as (_ & -> & Hblk).
  destruct d' as [|bb o']; simpl in Hownb; [subst ys; simpl in *; lia|].
  destruct Hownb as (_ & -> & Hbb).
  apply bind_Undefined.
  erewrite bind_Ok; [|by apply get_obj_Ok].
  erewrite bind_Ok; [|by apply get_obj_Ok].
  simpl. rewrite !Z.eqb_refl. simpl.
  erewrite bind_Ok; [|reflexivity].
  erewrite bind_Ok; [|by apply get_obj_Ok].
  simpl. apply bind_Undefined.
  apply (copy_loop_overflow m bb blk (- lo) (λ i, i) 0 lo ys xs);
    simpl; try done; lia.
Qed.

(** ** The operations of the public contract

    The arrays of the contract have bounds that are [int]s and at most
    [INT_MAX] elements, [int_array]; each operation is described where the
    arithmetic it does on them stays within the [int]s. *)

(** C1: on an array with bounds [first .. last] where [last + 1] is below
    [INT_MAX] and there are fewer than [INT_MAX] elements, [Insert(v, n)]
    brings [n] into [first .. last + 1] ([first] when [n] is below it,
    [last + 1] when [n] is above it) and, when that index is above [INT_MIN],
    returns it; [Get] there then yields [v]; [First()] is unchanged, [Last()]
    and [Length()] grow by one, the elements below the index stay where they
    were and the elements at or after it are found one index higher, in the
    same order. *)
Theorem Insert_clamps_and_shifts m this a xs v n :
  is_array m this a xs →
  int_array a →
  maxdex a + 1 < INT_MAX →
  maxdex a - mindex a + 1 < INT_MAX →
  INT_MIN < clamp (mindex a) (maxdex a) n →
  let first := mindex a in
  let last := maxdex a in
  let r := clamp first last n in
  ∃ m',
    Insert this v n m = Ok r m' ∧
    first ≤ r ≤ last + 1 ∧
    (n < first → r = first) ∧
    (last + 1 < n → r = last + 1) ∧
    (first ≤ n ≤ last + 1 → r = n) ∧
    First this m' = Ok first m' ∧
    Last this m' = Ok (last + 1) m' ∧
    Length this m = Ok (last - first + 1) m ∧
    Length this m' = Ok (last - first + 1 + 1) m' ∧
    Get this r m' = Ok v m' ∧
    (∀ i, first ≤ i < r →
          ∃ x, Get this i m = Ok x m ∧ Get this i m' = Ok x m') ∧
    (∀ i, r ≤ i ≤ last →
          ∃ x, Get this i m = Ok x m ∧ Get this (i + 1) m' = Ok x m') ∧
    ∃ a', is_array m' this a' (inserted first r v xs).
Proof.
  intros Ha (Hint & _ & _) Hmax Hsize Hpos first last r. subst first last.
  pose proof (is_array_bounds _ _ _ _ Ha) as Hb.
  pose proof Ha as (Hobj & Hlen & _).
  assert (Hr : mindex a ≤ r ≤ maxdex a + 1) by (subst r; unfold clamp; lia).
  assert (Hlen' : Z.of_nat (length (inserted (mindex a) r v xs))
                  = maxdex a + 1 - mindex a + 1).
  { rewrite inserted_length. lia. }
  eexists. split; [by apply Insert_spec|].
  split; [done|]. split; [subst r; unfold clamp; lia|].
  split; [subst r; unfold clamp; lia|]. split; [subst r; unfold clamp; lia|].
  split; [by erewrite First_spec by apply realloc_obj|].
  split; [by erewrite Last_spec by apply realloc_obj|].
  split; [eapply Length_is_array; [done | lia]|].
  split.
  { erewrite Length_spec by apply realloc_obj. simpl.
    rewrite int_size by lia. do 2 f_equal. lia. }
  split.
  { apply realloc_Get; [done | lia |].
    rewrite inserted_lookup by lia. case_decide; [lia|]. by case_decide; [|lia]. }
  split; [|split].
  - intros i Hi. destruct (Get_spec _ _ _ _ i Ha) as (x & Hx & Hrun); [lia|].
    exists x. split; [done|]. apply realloc_Get; [done | lia |].
    rewrite inserted_lookup by lia. by case_decide; [|lia].
  - intros i Hi. destruct (Get_spec _ _ _ _ i Ha) as (x & Hx & Hrun); [lia|].
    exists x. split; [done|]. apply realloc_Get; [done | lia |].
    rewrite inserted_lookup by lia. case_decide; [lia|]. case_decide; [lia|].
    rewrite <- Hx. f_equal. lia.
  - eexists. by apply realloc_is_array.
Qed.

(** C3: on an array where [last + 1] is below [INT_MAX] and there are fewer
    than [INT_MAX] elements, [Append(v)] returns the former [last + 1], which
    is [Last()] after the call; [Get] at that index yields [v], every element
    stored before is still found at its index, and [Length()] has grown by
    exactly one. *)
Theorem Append_at_new_last m this a xs v :
  is_array m this a xs →
  int_array a →
  maxdex a + 1 < INT_MAX →
  maxdex a - mindex a + 1 < INT_MAX →
  let first := mindex a in
  let last := maxdex a in
  ∃ m',
    Append this v m = Ok (last + 1) m' ∧
    Last this m' = Ok (last + 1) m' ∧
    First this m' = Ok first m' ∧
    Get this (last + 1) m' = Ok v m' ∧
    (∀ i, first ≤ i ≤ last →
          ∃ x, Get this i m = Ok x m ∧ Get this i m' = Ok x m') ∧
    Length this m = Ok (last - first + 1) m ∧
    Length this m' = Ok (last - first + 1 + 1) m' ∧
    ∃ a', is_array m' this a' (xs ++ [v]).
Proof.
  intros Ha (Hlo & Hhi & _) Hmax Hsize first last. subst first last.
  pose proof (is_array_bounds _ _ _ _ Ha) as Hb.
  pose proof Ha as (Hobj & Hlen & _).
  assert (Hlen' : Z.of_nat (length (inserted (mindex a) (maxdex a + 1) v xs))
                  = maxdex a + 1 - mindex a + 1).
  { rewrite inserted_length. lia. }
  assert (Hsnoc : inserted (mindex a) (maxdex a + 1) v xs = xs ++ [v]).
  { unfold inserted. rewrite take_ge, drop_ge by lia. done. }
  eexists. split; [by apply Append_spec|].
  split; [by erewrite Last_spec by apply realloc_obj|].
  split; [by erewrite First_spec by apply realloc_obj|].
  split.
  { apply realloc_Get; [done | lia |]. rewrite Hsnoc.
    apply list_lookup_middle. lia. }
  split.
  { intros i Hi. destruct (Get_spec _ _ _ _ i Ha) as (x & Hx & Hrun); [lia|].
    exists x. split; [done|]. apply realloc_Get; [done | lia |].
    rewrite Hsnoc. by apply lookup_app_l_Some. }
  split; [eapply Length_is_array; [done | lia]|].
  split.
  { erewrite Length_spec by apply realloc_obj. simpl.
    rewrite int_size by lia. do 2 f_equal. lia. }
  eexists. rewrite <- Hsnoc. by apply realloc_is_array.
Qed.

(** C10: on any array, [Insert(v, n)] with [n] above [Last()] runs as
    [Append(v)] does: the same result, the same memory, and so the same array
    and the same returned index. *)
Theorem Insert_above_last_is_Append m this a v n :
  objs m !! this = Some a →
  maxdex a < n →
  Insert this v n m = Append this v m.
Proof.
  intros Hobj Hn. unfold Insert, Append.
  rewrite !(bind_Ok _ _ _ _ _ (get_obj_Ok _ _ _ Hobj)).
  pose proof (int_succ_le (maxdex a)) as Hle.
  destruct (Z.ltb_spec n (mindex a)) as [Hlow|Hhigh].
  - (* [n] between [maxdex] and [mindex]: no such index is accepted *)
    unfold InsertAt. rewrite !(bind_Ok _ _ _ _ _ (get_obj_Ok _ _ _ Hobj)).
    replace ((mindex a >? mindex a) || (mindex a >? int_succ (maxdex a))) with true.
    + replace ((mindex a >? int_succ (maxdex a))
               || (int_succ (maxdex a) >? int_succ (maxdex a)))
        with true; [done|].
      symmetry. apply orb_true_iff. rewrite !Z.gtb_ltb, !Z.ltb_lt. lia.
    + symmetry. apply orb_true_iff. rewrite !Z.gtb_ltb, !Z.ltb_lt. lia.
  - rewrite Z.gtb_ltb. destruct (Z.ltb_spec (int_succ (maxdex a)) n); [done|].
    by replace n with (int_succ (maxdex a)) by lia.
Qed.

(** C2: on an array whose last index is above [INT_MIN], for [n] in
    [first .. last], [Remove(n)] returns the element that was at index [n];
    the elements below [n] stay where they were, each element above [n] is
    found one index lower, so the remaining elements are the former ones
    without that at [n]; [Last()] and [Length()] drop by one; the block the
    array held is released, and when no element remains the array holds no
    block. *)
Theorem Remove_returns_and_shifts m this a xs n :
  is_array m this a xs →
  int_array a →
  INT_MIN < maxdex a →
  mindex a ≤ n ≤ maxdex a →
  let first := mindex a in
  let last := maxdex a in
  ∃ x m' a',
    Get this n m = Ok x m ∧
    Remove this n m = Ok x m' ∧
    First this m' = Ok first m' ∧
    Last this m' = Ok (last - 1) m' ∧
    Length this m = Ok (last - first + 1) m ∧
    Length this m' = Ok (last - first + 1 - 1) m' ∧
    (∀ i, first ≤ i < n →
          ∃ y, Get this i m = Ok y m ∧ Get this i m' = Ok y m') ∧
    (∀ i, n < i ≤ last →
          ∃ y, Get this i m = Ok y m ∧ Get this (i - 1) m' = Ok y m') ∧
    is_array m' this a' (removed first n xs) ∧
    (∀ b o, data a = Ptr b o → bufs m' !! b = Some None) ∧
    (last = first → data a' = Null ∧ length (bufs m') = length (bufs m)).
Proof.
  intros Ha Hint Hhi Hn first last. subst first last.
  pose proof Ha as (Hobj & Hlen & Hown).
  pose proof Hint as (_ & _ & Hsize).
  destruct (Remove_spec _ _ _ _ n Ha Hint Hhi Hn) as (x & Hx & Hrun).
  assert (Hlen' : Z.of_nat (length (removed (mindex a) n xs))
                  = maxdex a - 1 - mindex a + 1).
  { unfold removed. rewrite length_delete by eauto. lia. }
  exists x. eexists. eexists.
  split; [by eapply Get_lookup|]. split; [exact Hrun|].
  split; [by erewrite First_spec by apply realloc_obj|].
  split; [by erewrite Last_spec by apply realloc_obj|].
  split; [by eapply Length_is_array|].
  split.
  { erewrite Length_spec by apply realloc_obj. simpl.
    rewrite int_size by lia. do 2 f_equal. lia. }
  split; [|split; [|split; [|split]]].
  - intros i Hi. destruct (Get_spec _ _ _ _ i Ha) as (y & Hy & Hruny); [lia|].
    exists y. split; [done|]. apply realloc_Get; [done | lia |].
    unfold removed. rewrite list_lookup_delete. by case_decide; [|lia].
  - intros i Hi. destruct (Get_spec _ _ _ _ i Ha) as (y & Hy & Hruny); [lia|].
    exists y. split; [done|]. apply realloc_Get; [done | lia |].
    unfold removed. rewrite list_lookup_delete. case_decide; [lia|].
    rewrite <- Hy. f_equal. lia.
  - by apply realloc_is_array.
  - intros b o Hd. rewrite Hd in Hown. destruct Hown as (_ & _ & Hb).
    apply lookup_lt_Some in Hb. simpl. rewrite Hd. simpl.
    destruct (removed (mindex a) n xs); simpl.
    + by apply list_lookup_insert_eq.
    + apply lookup_app_l_Some. by apply list_lookup_insert_eq.
  - intros Hone. simpl.
    assert (removed (mindex a) n xs = []) as ->.
    { apply length_zero_iff_nil. lia. }
    simpl. split; [done | apply release_length].
Qed.

(** C6: [Get(i)] and [Remove(n)] with an index outside [First() .. Last()]
    throw [IndexException], and the memory in which the exception is thrown
    is the memory of the call: the fields and the elements of the array are
    what they were. *)
Theorem index_errors_leave_memory m this a i :
  objs m !! this = Some a →
  i < mindex a ∨ maxdex a < i →
  Get this i m = Throw IndexException m ∧
  Remove this i m = Throw IndexException m.
Proof.
  intros Hobj Hi. split.
  - by eapply Get_out_of_range.
  - by eapply Remove_out_of_range.
Qed.

(** C5: for [hi] below [INT_MAX] and at most [INT_MAX] indices from [lo] to
    [hi], [Array(lo, hi)] throws [RangeException] exactly when [hi + 1 < lo];
    otherwise it returns, and the array has [First() = lo], [Last() = hi] and
    [Length() = hi - lo + 1]; when [hi = lo - 1] the length is [0], the data
    pointer is null and no block was taken from the free store. *)
Theorem Array_lo_hi_range m this lo hi :
  hi < INT_MAX →
  hi - lo + 1 ≤ INT_MAX →
  ((∃ m', Array_lo_hi this lo hi m = Throw RangeException m') ↔ hi + 1 < lo) ∧
  (¬ hi + 1 < lo →
   ∃ m' xs,
     Array_lo_hi this lo hi m = Ok () m' ∧
     First this m' = Ok lo m' ∧
     Last this m' = Ok hi m' ∧
     Length this m' = Ok (hi - lo + 1) m' ∧
     is_array m' this (mkArray lo hi (fresh_data m lo xs)) xs ∧
     (hi = lo - 1 →
      Length this m' = Ok 0 m' ∧ fresh_data m lo xs = Null ∧ bufs m' = bufs m)).
Proof.
  intros Hhi Hsize. split; [split|].
  - intros (m' & Hrun).
    destruct (Z.lt_ge_cases (hi + 1) lo) as [|Hge]; [done|].
    by rewrite Array_lo_hi_spec in Hrun by lia.
  - intros Hlt. exists m. by apply Array_lo_hi_Throw.
  - intros Hge. eexists. exists (replicate (Z.to_nat (hi - lo + 1)) T_default).
    assert (Hlen : Length this
              (realloc m this lo hi (replicate (Z.to_nat (hi - lo + 1)) T_default) Null)
              = Ok (hi - lo + 1)
                  (realloc m this lo hi
                     (replicate (Z.to_nat (hi - lo + 1)) T_default) Null)).
    { erewrite Length_spec by apply realloc_obj. simpl. by rewrite int_size by lia. }
    split; [apply Array_lo_hi_spec; lia|].
    split; [by erewrite First_spec by apply realloc_obj|].
    split; [by erewrite Last_spec by apply realloc_obj|].
    split; [done|].
    split; [apply realloc_is_array; rewrite length_replicate; lia|].
    intros ->. replace (lo - 1 - lo + 1) with 0 in * by lia. simpl. done.
Qed.

(** C7: on an array whose first index is above [INT_MIN] and whose last
    index is below [INT_MAX], [Find(v)] returns the lowest index in
    [first .. last] whose element compares equal to [v], that is, for which
    [!=] is false; when no element does it returns exactly [first - 1], which
    is [last] for an array without elements; and [Contains(v)] is true
    exactly when [Find(v)] is not [first - 1]. *)
Theorem Find_lowest_index m this a xs v :
  is_array m this a xs →
  INT_MIN < mindex a →
  maxdex a < INT_MAX →
  let first := mindex a in
  let last := maxdex a in
  ∃ r,
    Find this v m = Ok r m ∧
    (first ≤ r ≤ last ∧
     (∃ x, Get this r m = Ok x m ∧ T_neq x v = false) ∧
     (∀ i, first ≤ i < r → ∃ y, Get this i m = Ok y m ∧ T_neq y v = true)
     ∨
     r = first - 1 ∧
     (∀ i, first ≤ i ≤ last → ∃ y, Get this i m = Ok y m ∧ T_neq y v = true)) ∧
    (xs = [] → r = last) ∧
    Contains this v m = Ok (negb (r =? first - 1)) m ∧
    ∀ c, Contains this v m = Ok c m → (c = true ↔ r ≠ first - 1).
Proof.
  intros Ha Hmin Hmax first last. subst first last.
  pose proof Ha as (Hobj & Hlen & _).
  destruct (Find_spec _ _ _ _ v Ha Hmin Hmax) as (r & Hrun & Hbelow & Hat).
  assert (Hc : Contains this v m = Ok (negb (r =? mindex a - 1)) m).
  { unfold Contains. rewrite (bind_Ok _ _ _ _ _ Hrun).
    rewrite (bind_Ok _ _ _ _ _ (get_obj_Ok _ _ _ Hobj)).
    by rewrite int_pred_eq. }
  exists r. split; [done|]. split; [|split; [|split; [done|]]].
  - destruct Hat as [->|(Hr & x & Hx & Hneq)].
    + right. split; [done|]. intros i Hi.
      destruct (Get_spec _ _ _ _ i Ha) as (y & Hy & Hruny); [lia|].
      exists y. split; [done|]. eapply (Hbelow i); [lia | by left | done].
    + left. split; [done|]. split.
      * exists x. split; [by eapply Get_lookup | done].
      * intros i Hi.
        destruct (Get_spec _ _ _ _ i Ha) as (y & Hy & Hruny); [lia|].
        exists y. split; [done|]. eapply (Hbelow i); [lia | right; lia | done].
  - intros ->. simpl in Hlen. destruct Hat as [->|(Hr & _)]; lia.
  - intros c Hc'. rewrite Hc in Hc'. injection Hc' as <-.
    destruct (Z.eqb_spec r (mindex a - 1)); simpl; split; congruence.
Qed.

(** C9: an iterator made from an array starts at the array's [First()];
    both increments do the same and nothing but move the index, up by one
    when it is below [INT_MAX]; [AtEnd()] is true exactly when the index is
    above the array's [Last()]; and with the index above [Last()], each of
    the three accesses throws [IndexException], from the array's own check,
    in an unchanged memory. *)
Theorem iterator_contract m p a (it : ArrayPtrConstIterator) :
  objs m !! p = Some a →
  m_array it = p →
  Iterator_new p m = Ok (mkIter p (mindex a)) m ∧
  (m_index it < INT_MAX → Iterator_inc_prefix it = mkIter p (m_index it + 1)) ∧
  Iterator_inc_postfix it = Iterator_inc_prefix it ∧
  (∃ e, AtEnd it m = Ok e m ∧ (e = true ↔ maxdex a < m_index it)) ∧
  (maxdex a < m_index it →
   Iterator_star it m = Throw IndexException m ∧
   Iterator_arrow it m = Throw IndexException m ∧
   Iterator_cast it m = Throw IndexException m).
Proof.
  intros Hobj <-. split; [|split; [|split; [done|split]]].
  - unfold Iterator_new. by rewrite (bind_Ok _ _ _ _ _ (First_spec _ _ _ Hobj)).
  - intros Hlt. unfold Iterator_inc_prefix. by rewrite int_succ_eq.
  - exists (m_index it >? maxdex a). split.
    + unfold AtEnd. by rewrite (bind_Ok _ _ _ _ _ (Last_spec _ _ _ Hobj)).
    + rewrite Z.gtb_ltb. apply Z.ltb_lt.
  - intros Hend.
    assert (Hget : Get (m_array it) (m_index it) m = Throw IndexException m).
    { eapply Get_out_of_range; [done | by right]. }
    split; [|split]; [|done..].
    unfold Iterator_star. by rewrite (bind_Throw _ _ _ _ _ Hget).
Qed.

Lemma separate_sym p q : separate p q → separate q p.
Proof. destruct p, q; simpl; auto. Qed.

Lemma separate_Null_r p : separate p Null.
Proof. by destruct p. Qed.



Lemma realloc_released m this lo hi xs blk o zs :
  bufs m !! blk = Some zs →
  bufs (realloc m this lo hi xs (Ptr blk o)) !! blk = Some None.
Proof.
  intros Hb. apply lookup_lt_Some in Hb. simpl.
  destruct xs; simpl.
  - by apply list_lookup_insert_eq.
  - apply lookup_app_l_Some. by apply list_lookup_insert_eq.
Qed.

(** C8: for two different array objects that share no block, where the
    last index of [b] is below [INT_MAX], [a = b] leaves the receiver with
    the bounds of [b] and, at every index, an element equal to that of [b],
    held in a block of its own, and leaves [b] as it was.  If the receiver
    held a block and had the bounds of [b], its data pointer is the one it
    had and no block was taken from the free store: the elements were
    written over in place.  If the bounds differed, the block the receiver
    held is released and its data pointer is null when [b] has no elements,
    otherwise the start, moved down by [mindex], of a block that was not in
    the free store before and holds exactly the elements of [b]. *)
Theorem assign_deep_copy m this other a b xs ys :
  is_array m this a xs →
  is_array m other b ys →
  this ≠ other →
  separate (data a) (data b) →
  int_array b →
  maxdex b < INT_MAX →
  ∃ m' a',
    operator_assign this other m = Ok this m' ∧
    is_array m' this a' ys ∧
    mindex a' = mindex b ∧ maxdex a' = maxdex b ∧
    is_array m' other b ys ∧
    separate (data a') (data b) ∧
    (∀ i, mindex b ≤ i ≤ maxdex b →
          ∃ y, Get other i m' = Ok y m' ∧ Get this i m' = Ok y m') ∧
    (data a ≠ Null → mindex a = mindex b → maxdex a = maxdex b →
     data a' = data a ∧ length (bufs m') = length (bufs m)) ∧
    (mindex a ≠ mindex b ∨ maxdex a ≠ maxdex b →
     (∀ blk o, data a = Ptr blk o → bufs m' !! blk = Some None) ∧
     (ys = [] → data a' = Null) ∧
     (ys ≠ [] →
      ∃ nb, data a' = Ptr nb (- mindex b) ∧
            bufs m !! nb = None ∧
            bufs m' !! nb = Some (Some ys) ∧
            Z.of_nat (length ys) = maxdex b - mindex b + 1)).
Proof.
  intros Ha Hb Hne Hsep ([Hmin _] & _ & Hsize) Hmax.
  pose proof Ha as (Hobja & Hlena & Howna).
  pose proof Hb as (Hobjb & Hlenb & Hownb).
  assert (Hreads : ∀ m' a',
    is_array m' this a' ys → is_array m' other b ys →
    mindex a' = mindex b → maxdex a' = maxdex b →
    ∀ i, mindex b ≤ i ≤ maxdex b →
         ∃ y, Get other i m' = Ok y m' ∧ Get this i m' = Ok y m').
  { intros m' a' Ha' Hb' Hlo Hhi i Hi.
    destruct (Get_spec _ _ _ _ i Hb' Hi) as (y & Hy & Hrun).
    exists y. split; [done|].
    eapply Get_lookup; [done | lia | by rewrite Hlo]. }
  destruct (data a) as [|blk o] eqn:Hd.
  { (* the receiver holds no block *)
    exists (realloc m this (mindex b) (maxdex b) ys Null),
           (mkArray (mindex b) (maxdex b) (fresh_data m (mindex b) ys)).
    assert (Ha' : is_array (realloc m this (mindex b) (maxdex b) ys Null) this
              (mkArray (mindex b) (maxdex b) (fresh_data m (mindex b) ys)) ys)
      by (by apply realloc_is_array).
    assert (Hb' : is_array (realloc m this (mindex b) (maxdex b) ys Null) other b ys)
      by (apply realloc_frame; [done | done | apply separate_Null_r]).
    split; [rewrite <- Hd; apply (assign_realloc _ _ _ _ _ xs); auto; by rewrite Hd|].
    split; [done|]. split; [done|]. split; [done|]. split; [done|].
    split; [by apply separate_sym; eapply fresh_data_separate|].
    split; [exact (Hreads _ _ Ha' Hb' eq_refl eq_refl)|]. split; [done|].
    intros _. split; [done|]. split; [by intros ->|].
    intros Hys. exists (length (bufs m)).
    split; [by apply fresh_data_cons|]. split; [by apply lookup_ge_None_2|].
    split; [|done]. simpl. rewrite alloc_cons by done. apply lookup_snoc. }
  destruct (decide (mindex a = mindex b ∧ maxdex a = maxdex b)) as [[Hlo Hhi]|Hshape].
  - (* same bounds: the block is written over *)
    exists (Mem (objs m) (<[blk := Some ys]> (bufs m))), a.
    pose proof (owns_Ptr_length _ _ _ _ _ Howna) as Hpos.
    destruct Howna as (_ & -> & Hblk).
    assert (Hblklt : (blk < length (bufs m))%nat) by (by eapply lookup_lt_Some).
    assert (Ha' : is_array (Mem (objs m) (<[blk := Some ys]> (bufs m))) this a ys).
    { split; [done|]. split; [lia|]. rewrite Hd. simpl.
      split; [|split; [done | by apply list_lookup_insert_eq]].
      intros ->. simpl in *. lia. }
    assert (Hb' : is_array (Mem (objs m) (<[blk := Some ys]> (bufs m))) other b ys).
    { split; [done|]. split; [done|].
      destruct (data b) as [|bb o']; [done|]. simpl in *.
      destruct Hownb as (? & ? & ?). split; [done|]. split; [done|].
      by rewrite list_lookup_insert_ne. }
    split; [eapply (assign_reuse _ _ _ _ _ xs ys); eauto; by rewrite Hd|].
    split; [done|]. split; [done|]. split; [done|]. split; [done|].
    split; [by rewrite Hd|]. split; [exact (Hreads _ _ Ha' Hb' Hlo Hhi)|].
    split; [intros _ _ _; split; [done | apply length_insert]|].
    intros [?|?]; done.
  - (* other bounds: a block of its own *)
    assert (Hdiff : mindex a ≠ mindex b ∨ maxdex a ≠ maxdex b).
    { destruct (decide (mindex a = mindex b)) as [Heq|Hneq];
        [right; intros Hhi; by apply Hshape | by left]. }
    exists (realloc m this (mindex b) (maxdex b) ys (Ptr blk o)),
           (mkArray (mindex b) (maxdex b) (fresh_data m (mindex b) ys)).
    assert (Ha' : is_array (realloc m this (mindex b) (maxdex b) ys (Ptr blk o)) this
              (mkArray (mindex b) (maxdex b) (fresh_data m (mindex b) ys)) ys)
      by (by apply realloc_is_array).
    assert (Hb' : is_array (realloc m this (mindex b) (maxdex b) ys (Ptr blk o))
                    other b ys)
      by (apply realloc_frame; [done | done | by apply separate_sym]).
    split; [rewrite <- Hd; apply (assign_realloc _ _ _ _ _ xs); auto; by rewrite Hd|].
    split; [done|]. split; [done|]. split; [done|]. split; [done|].
    split; [by apply separate_sym; eapply fresh_data_separate|].
    split; [exact (Hreads _ _ Ha' Hb' eq_refl eq_refl)|].
    split; [intros _ Hlo Hhi; by destruct Hshape|].
    intros _. split; [|split; [by intros ->|]].
    + intros blk' o' [= <- <-].
      destruct Howna as (_ & _ & Hblk). by eapply realloc_released.
    + intros Hys. exists (length (bufs m)).
      split; [by apply fresh_data_cons|]. split; [by apply lookup_ge_None_2|].
      split; [|done]. simpl. rewrite alloc_cons by done.
      rewrite <- (length_insert (bufs m) blk None). apply lookup_snoc.
Qed.

(** ** Further properties of the member functions *)

(** Writing through [operator[]]. *)
Lemma Put_exact m this a xs i x :
  is_array m this a xs →
  mindex a ≤ i ≤ maxdex a →
  ∃ b, data a = Ptr b (- mindex a) ∧
       bufs m !! b = Some (Some xs) ∧
       Put this i x m
       = Ok () (overwrite m b (<[Z.to_nat (i - mindex a) := x]> xs)).
Proof.
  intros (Hobj & Hlen & Hown) Hi. unfold Put.
  rewrite (bind_Ok _ _ _ _ _ (operator_index_Ok _ _ _ _ Hobj Hi)).
  assert (is_Some (xs !! Z.to_nat (i - mindex a))) as [y Hy].
  { apply lookup_lt_is_Some. lia. }
  destruct (owns_lookup _ _ _ _ _ _ Hown Hy) as (b & Hd & Hb).
  exists b. split; [done|]. split; [done|]. rewrite Hd.
  erewrite store_Ok; [|done|lia]. unfold overwrite.
  by replace (- mindex a + i) with (i - mindex a) by lia.
Qed.

Lemma Put_out_of_range m this a i x :
  objs m !! this = Some a →
  i < mindex a ∨ maxdex a < i →
  Put this i x m = Throw IndexException m.
Proof.
  intros Hobj Hi. unfold Put.
  by rewrite (bind_Throw _ _ _ _ _ (operator_index_Throw _ _ _ _ Hobj Hi)).
Qed.

Lemma overwrite_is_array m this a xs b o ys :
  is_array m this a xs →
  data a = Ptr b o →
  length ys = length xs →
  is_array (overwrite m b ys) this a ys.
Proof.
  intros (Hobj & Hlen & Hown) Hd Hys. rewrite Hd in Hown.
  pose proof (owns_Ptr_length _ _ _ _ _ Hown) as Hpos.
  destruct Hown as (_ & -> & Hb). apply lookup_lt_Some in Hb.
  split; [done|]. split; [lia|]. rewrite Hd. simpl.
  split; [|split; [done | by apply list_lookup_insert_eq]].
  intros ->. simpl in *. lia.
Qed.

Lemma overwrite_frame m other c zs b ys :
  is_array m other c zs →
  separate (data c) (Ptr b 0) →
  is_array (overwrite m b ys) other c zs.
Proof.
  intros (Hobj & Hlen & Hown) Hsep. split; [done|]. split; [done|].
  destruct (data c) as [|b' o']; [done|]. simpl in *.
  destruct Hown as (? & ? & ?). split; [done|]. split; [done|].
  by rewrite list_lookup_insert_ne.
Qed.

Lemma separate_off p b o o' : separate p (Ptr b o) → separate p (Ptr b o').
Proof. by destruct p. Qed.

(** Two descriptions of the same object agree on its elements. *)
Lemma is_array_agree m this a xs ys :
  is_array m this a xs → is_array m this a ys → xs = ys.
Proof.
  intros (_ & _ & Hx) (_ & _ & Hy). destruct (data a); simpl in *.
  - congruence.
  - destruct Hx as (_ & _ & Hx), Hy as (_ & _ & Hy). congruence.
Qed.

(** Counting the allocated blocks. *)
Lemma live_app bs bs' : live (bs ++ bs') = (live bs + live bs')%nat.
Proof.
  induction bs as [|[x|] bs IH]; simpl; [done | by rewrite IH | done].
Qed.

Lemma live_release bs (b : nat) xs :
  bs !! b = Some (Some xs) → S (live (<[b := None]> bs)) = live bs.
Proof.
  revert b. induction bs as [|y bs IH]; intros [|b] Hb; simpl in *; try done.
  - by injection Hb as ->.
  - destruct y; simpl; by rewrite <- (IH b).
Qed.

Lemma live_overwrite bs (b : nat) xs ys :
  bs !! b = Some (Some xs) → live (<[b := Some ys]> bs) = live bs.
Proof.
  revert b. induction bs as [|y bs IH]; intros [|b] Hb; simpl in *; try done.
  - by injection Hb as ->.
  - destruct y; simpl; by rewrite (IH b).
Qed.

Lemma live_realloc m this a xs lo hi ys :
  is_array m this a xs →
  (live (bufs (realloc m this lo hi ys (data a)))
   + (if decide (xs = []) then 0 else 1)
   = live (bufs m) + (if decide (ys = []) then 0 else 1))%nat.
Proof.
  intros (_ & _ & Hown). simpl.
  assert (Hrel : (live (release (data a) (bufs m))
                  + (if decide (xs = []) then 0 else 1) = live (bufs m))%nat).
  { destruct (data a) as [|b o]; simpl in *.
    - subst xs. rewrite decide_True by done. lia.
    - destruct Hown as (Hne & _ & Hb). rewrite decide_False by done.
      rewrite <- (live_release _ _ _ Hb). lia. }
  destruct (decide (ys = [])) as [->|Hne]; simpl; [lia|].
  rewrite alloc_cons by done. rewrite live_app. simpl. lia.
Qed.

Lemma live_alloc bs ys :
  live (alloc bs ys) = (live bs + (if decide (ys = []) then 0 else 1))%nat.
Proof.
  destruct (decide (ys = [])) as [->|Hne]; simpl; [lia|].
  rewrite alloc_cons by done. rewrite live_app. simpl. lia.
Qed.

Lemma live_release_owned m d lo xs :
  owns m d lo xs →
  (live (release d (bufs m)) + (if decide (xs = []) then 0 else 1)
   = live (bufs m))%nat.
Proof.
  intros Hown. destruct d as [|b o]; simpl in *.
  - subst xs. rewrite decide_True by done. lia.
  - destruct Hown as (Hne & _ & Hb). rewrite decide_False by done.
    rewrite <- (live_release _ _ _ Hb). lia.
Qed.

Lemma release_frame m this other c zs old :
  is_array m other c zs →
  other ≠ this →
  separate (data c) old →
  is_array (Mem (delete this (objs m)) (release old (bufs m))) other c zs.
Proof.
  intros (Hobj & Hlen & Hown) Hne Hsep. split; [|split; [done|]].
  - simpl. by rewrite lookup_delete_ne.
  - destruct (data c) as [|b o]; [done|]. simpl in *.
    destruct Hown as (? & ? & Hb). split; [done|]. split; [done|].
    destruct old as [|b' o']; simpl in *; [done|].
    by rewrite list_lookup_insert_ne.
Qed.

Lemma release_released (bs : list (option (list T))) (b : nat) o zs :
  bs !! b = Some zs → release (Ptr b o) bs !! b = Some None.
Proof. intros Hb. apply lookup_lt_Some in Hb. by apply list_lookup_insert_eq. Qed.

(** X1: [Array(len)] with [len] below [2^31] returns, in any memory, and
    builds an array with [First() = 1], [Last() = len] and [Length() = len]
    whose elements all have the value [new T[len]] gives them; for
    [len = 0] the data pointer is null and the free store is unchanged; the
    arrays that were there are what they were. *)
Theorem Array_len_builds m this (len : N) :
  (len < 2 ^ 31)%N →
  ∃ m' a,
    Array_len this len m = Ok () m' ∧
    is_array m' this a (replicate (N.to_nat len) T_default) ∧
    First this m' = Ok 1 m' ∧
    Last this m' = Ok (Z.of_N len) m' ∧
    Length this m' = Ok (Z.of_N len) m' ∧
    (∀ i, 1 ≤ i ≤ Z.of_N len → Get this i m' = Ok T_default m') ∧
    (len = 0%N → data a = Null ∧ bufs m' = bufs m) ∧
    (∀ other c zs, other ≠ this → is_array m other c zs → is_array m' other c zs).
Proof.
  intros Hlen.
  assert (Hl : Z.of_nat (length (replicate (N.to_nat len) T_default))
               = Z.of_N len - 1 + 1).
  { rewrite length_replicate. lia. }
  eexists. eexists. split; [by apply Array_len_spec|].
  split; [by apply realloc_is_array|].
  split; [by erewrite First_spec by apply realloc_obj|].
  split; [by erewrite Last_spec by apply realloc_obj|].
  split.
  { erewrite Length_spec by apply realloc_obj. simpl.
    rewrite int_size by (unfold INT_MAX; lia). do 2 f_equal. lia. }
  split.
  { intros i Hi. apply realloc_Get; [done | done |].
    apply lookup_replicate_2. lia. }
  split.
  { intros ->. done. }
  intros other c zs Hne Hc. apply realloc_frame; [done | done |].
  apply separate_Null_r.
Qed.

(** X2: on an array, [a[i] = x] with [i] in [First() .. Last()] makes [Get]
    at [i] yield [x], leaves the element at every other index, the bounds,
    the objects and the number of blocks as they were; with [i] outside
    [First() .. Last()] it throws [IndexException] in an unchanged memory. *)
Theorem Put_then_Get m this a xs i x :
  is_array m this a xs →
  (mindex a ≤ i ≤ maxdex a →
   ∃ m',
     Put this i x m = Ok () m' ∧
     Get this i m' = Ok x m' ∧
     (∀ j, mindex a ≤ j ≤ maxdex a → j ≠ i →
           ∃ y, Get this j m = Ok y m ∧ Get this j m' = Ok y m') ∧
     First this m' = Ok (mindex a) m' ∧
     Last this m' = Ok (maxdex a) m' ∧
     objs m' = objs m ∧
     length (bufs m') = length (bufs m)) ∧
  (i < mindex a ∨ maxdex a < i → Put this i x m = Throw IndexException m).
Proof.
  intros Ha. pose proof Ha as (Hobj & Hlen & _). split.
  - intros Hi. destruct (Put_exact _ _ _ _ i x Ha Hi) as (b & Hd & Hb & Hrun).
    assert (Ha' : is_array (overwrite m b (<[Z.to_nat (i - mindex a) := x]> xs))
                    this a (<[Z.to_nat (i - mindex a) := x]> xs)).
    { eapply overwrite_is_array; [done | done | apply length_insert]. }
    eexists. split; [exact Hrun|].
    split; [eapply Get_lookup; [done | done | apply list_lookup_insert_eq; lia]|].
    split.
    { intros j Hj Hij. destruct (Get_spec _ _ _ _ j Ha Hj) as (y & Hy & Hruny).
      exists y. split; [done|]. eapply Get_lookup; [done | done |].
      rewrite list_lookup_insert_ne by lia. done. }
    split; [by apply First_spec|]. split; [by apply Last_spec|].
    split; [done|]. apply length_insert.
  - intros Hi. by eapply Put_out_of_range.
Qed.

(** X3: from an array whose last index is below [INT_MAX], the copy
    constructor builds, at another address, an array with the same bounds
    and the same elements in a block of its own, and leaves the source as it
    was; a write through [operator[]] to either of the two afterwards leaves
    the elements of the other unchanged. *)
Theorem Array_copy_independent m this other a xs :
  is_array m other a xs →
  this ≠ other →
  int_array a →
  maxdex a < INT_MAX →
  ∃ m1 a',
    Array_copy this other m = Ok () m1 ∧
    is_array m1 this a' xs ∧
    mindex a' = mindex a ∧ maxdex a' = maxdex a ∧
    is_array m1 other a xs ∧
    separate (data a') (data a) ∧
    ∀ i x, mindex a ≤ i ≤ maxdex a →
      (∃ m2, Put this i x m1 = Ok () m2 ∧
             Get this i m2 = Ok x m2 ∧ is_array m2 other a xs) ∧
      (∃ m3, Put other i x m1 = Ok () m3 ∧
             Get other i m3 = Ok x m3 ∧ is_array m3 this a' xs).
Proof.
  intros Ha Hne ([Hmin _] & _ & Hsize) Hmax. pose proof Ha as (_ & Hlen & _).
  set (m1 := realloc m this (mindex a) (maxdex a) xs Null).
  set (a' := mkArray (mindex a) (maxdex a) (fresh_data m (mindex a) xs)).
  assert (Ha' : is_array m1 this a' xs) by (by apply realloc_is_array).
  assert (Ha1 : is_array m1 other a xs).
  { apply realloc_frame; [done | done | apply separate_Null_r]. }
  assert (Hsep : separate (data a') (data a)).
  { apply separate_sym. by eapply fresh_data_separate. }
  exists m1, a'. split; [by apply Array_copy_spec|].
  split; [done|]. split; [done|]. split; [done|]. split; [done|]. split; [done|].
  intros i x Hi. split.
  - destruct (Put_exact _ _ _ _ i x Ha' Hi) as (b & Hd & Hb & Hrun).
    eexists. split; [exact Hrun|]. split.
    + eapply (Get_lookup _ this a'); [|exact Hi|].
      * eapply (overwrite_is_array m1 this a' xs);
          [exact Ha' | exact Hd | apply length_insert].
      * apply list_lookup_insert_eq. simpl. lia.
    + apply overwrite_frame; [done|].
      rewrite Hd in Hsep. apply separate_sym in Hsep.
      exact (separate_off _ _ _ _ Hsep).
  - destruct (Put_exact _ _ _ _ i x Ha1 Hi) as (b & Hd & Hb & Hrun).
    eexists. split; [exact Hrun|]. split.
    + eapply (Get_lookup _ other a); [|exact Hi|].
      * eapply (overwrite_is_array m1 other a xs);
          [exact Ha1 | exact Hd | apply length_insert].
      * apply list_lookup_insert_eq. lia.
    + apply overwrite_frame; [done|].
      rewrite Hd in Hsep. exact (separate_off _ _ _ _ Hsep).
Qed.

(** X4: the destructor of an array returns, takes the object out of the
    object store and releases the block the array held, so that one block
    fewer is allocated, or none fewer when the array had no elements, in
    which case the free store is untouched; every other array that shares no
    block with it is what it was. *)
Theorem Array_destroy_releases m this a xs :
  is_array m this a xs →
  ∃ m',
    Array_destroy this m = Ok () m' ∧
    objs m' !! this = None ∧
    (∀ b o, data a = Ptr b o → bufs m' !! b = Some None) ∧
    (xs = [] → bufs m' = bufs m) ∧
    (live (bufs m') + (if decide (xs = []) then 0 else 1) = live (bufs m))%nat ∧
    (∀ other c zs, other ≠ this → is_array m other c zs →
                   separate (data c) (data a) → is_array m' other c zs).
Proof.
  intros Ha. pose proof Ha as (Hobj & Hlen & Hown).
  eexists. split; [by eapply Array_destroy_spec|].
  split; [apply lookup_delete_eq|]. split; [|split; [|split]].
  - intros b o Hd. simpl. rewrite Hd. rewrite Hd in Hown.
    destruct Hown as (_ & _ & Hb). by eapply release_released.
  - intros ->. simpl. destruct (data a); simpl in *; [done|].
    by destruct Hown.
  - simpl. by eapply live_release_owned.
  - intros other c zs Hne Hc Hsep. by apply release_frame.
Qed.

(** X5: [Array(lo, hi)] with [lo <= hi + 1], [hi] below [INT_MAX] and at
    most [INT_MAX] indices from [lo] to [hi], followed by the destructor,
    returns and leaves as many blocks allocated as before, every block that
    was in the free store as it was, and the object store without an object
    at that address. *)
Theorem construct_destroy_no_leak m this lo hi :
  lo ≤ hi + 1 →
  hi < INT_MAX →
  hi - lo + 1 ≤ INT_MAX →
  ∃ m',
    (Array_lo_hi this lo hi;; Array_destroy this) m = Ok () m' ∧
    live (bufs m') = live (bufs m) ∧
    (∀ b : nat, (b < length (bufs m))%nat → bufs m' !! b = bufs m !! b) ∧
    objs m' = delete this (objs m).
Proof.
  intros Hle Hhi Hsize.
  pose proof (Array_lo_hi_spec m this lo hi Hle Hhi Hsize) as Hrun.
  remember (replicate (Z.to_nat (hi - lo + 1)) T_default) as xs eqn:Hxs.
  assert (Hlen : Z.of_nat (length xs) = hi - lo + 1).
  { subst xs. rewrite length_replicate. lia. }
  pose proof (realloc_is_array m this lo hi xs Null Hlen) as Ha.
  eexists. split.
  { erewrite bind_Ok; [|exact Hrun]. by eapply Array_destroy_spec. }
  simpl. split; [|split].
  - pose proof (live_release_owned _ _ _ _ (proj2 (proj2 Ha))) as Hl.
    simpl in Hl. rewrite live_alloc in Hl. lia.
  - intros b Hb. destruct xs as [|x xs']; simpl; [done|].
    rewrite list_lookup_insert_ne by lia.
    by apply lookup_app_l.
  - apply delete_insert_eq.
Qed.

(** X6: [Insert] and [Remove] keep the array on one block of its own.
    Where [Insert] stays within the [int]s ([last + 1] below [INT_MAX], fewer
    than [INT_MAX] elements, a position above [INT_MIN]), as many blocks are
    allocated after it as before, and one more if the array had no elements;
    after [Remove(n)], for [n] in [first .. last] and [last] above [INT_MIN],
    as many as before, and one fewer if the array had a single element. *)
Theorem mutation_block_count m this a xs v n :
  is_array m this a xs →
  int_array a →
  (maxdex a + 1 < INT_MAX →
   maxdex a - mindex a + 1 < INT_MAX →
   INT_MIN < clamp (mindex a) (maxdex a) n →
   ∃ r m', Insert this v n m = Ok r m' ∧
           live (bufs m')
           = (live (bufs m) + (if decide (xs = []) then 1 else 0))%nat) ∧
  (INT_MIN < maxdex a →
   mindex a ≤ n ≤ maxdex a →
   ∃ x m', Remove this n m = Ok x m' ∧
           (live (bufs m') + (if decide (length xs = 1%nat) then 1 else 0)
            = live (bufs m))%nat).
Proof.
  intros Ha Hint. pose proof Ha as (_ & Hlen & _). split.
  - intros Hmax Hsize Hpos.
    eexists. eexists. split; [apply Insert_spec; (done || apply Hint)|].
    pose proof (live_realloc m this a xs (mindex a) (maxdex a + 1)
      (inserted (mindex a) (clamp (mindex a) (maxdex a) n) v xs) Ha) as Hl.
    rewrite (decide_False (P := inserted _ _ _ _ = [])) in Hl.
    + destruct (decide (xs = [])); lia.
    + intros Hnil. apply (f_equal length) in Hnil.
      by rewrite inserted_length in Hnil.
  - intros Hhi Hn.
    destruct (Remove_spec _ _ _ _ n Ha Hint Hhi Hn) as (x & Hx & Hrun).
    exists x. eexists. split; [exact Hrun|].
    pose proof (live_realloc m this a xs (mindex a) (maxdex a - 1)
      (removed (mindex a) n xs) Ha) as Hl.
    assert (Hrm : length (removed (mindex a) n xs) = (length xs - 1)%nat).
    { unfold removed. by rewrite length_delete. }
    rewrite (decide_False (P := xs = [])) in Hl by (by intros ->).
    destruct (decide (length xs = 1%nat)) as [Hone|Hmore].
    + rewrite decide_True in Hl; [lia|]. apply length_zero_iff_nil. lia.
    + rewrite decide_False in Hl; [lia|]. intros Hnil.
      apply (f_equal length) in Hnil. simpl in Hnil.
      apply lookup_lt_Some in Hx. lia.
Qed.

(** [operator==] on elements, index by index. *)
Lemma same_elements_lookup xs ys :
  same_elements xs ys = true ↔
  ∀ (k : nat) x y, xs !! k = Some x → ys !! k = Some y → T_neq x y = false.
Proof.
  unfold same_elements. rewrite forallb_forall. split.
  - intros Hall k x y Hx Hy.
    apply negb_true_iff. apply (Hall (x, y)).
    apply list_elem_of_In, list_elem_of_lookup. exists k.
    by apply lookup_zip_Some.
  - intros Hall [x y] Hin.
    apply list_elem_of_In, list_elem_of_lookup in Hin as [k Hk].
    apply lookup_zip_Some in Hk as [Hx Hy].
    apply negb_true_iff. by eapply Hall.
Qed.

Lemma same_elements_sym xs ys :
  (∀ x y, T_neq x y = T_neq y x) →
  same_elements xs ys = same_elements ys xs.
Proof.
  intros Hsym. apply eq_true_iff_eq. rewrite !same_elements_lookup.
  split; intros Hall k x y Hx Hy; rewrite Hsym; by eapply Hall.
Qed.

(** X7: on two arrays, the first with its last index below [INT_MAX],
    [operator==] returns, in an unchanged memory, and its result is true
    exactly when the two have the same [First()] and the same [Last()] and at
    no index of that range do their elements differ under the element type's
    [!=]; [operator!=] returns the opposite. *)
Theorem operator_eq_decides m this other a b xs ys :
  is_array m this a xs →
  is_array m other b ys →
  int_array a →
  maxdex a < INT_MAX →
  ∃ r,
    operator_eq this other m = Ok r m ∧
    operator_ne this other m = Ok (negb r) m ∧
    (r = true ↔
     mindex a = mindex b ∧ maxdex a = maxdex b ∧
     ∀ i, mindex a ≤ i ≤ maxdex a →
          ∃ x y, Get this i m = Ok x m ∧ Get other i m = Ok y m ∧
                 T_neq x y = false).
Proof.
  intros Ha Hb ([Hmin _] & _) Hmax.
  pose proof Ha as (_ & Hlena & _). pose proof Hb as (_ & Hlenb & _).
  eexists. split; [by eapply operator_eq_spec|].
  split; [by eapply operator_ne_spec|].
  rewrite !andb_true_iff, !Z.eqb_eq, same_elements_lookup. split.
  - intros [[Hlo Hhi] Hall]. split; [done|]. split; [done|]. intros i Hi.
    destruct (Get_spec _ _ _ _ i Ha Hi) as (x & Hx & Hrunx).
    destruct (Get_spec _ _ _ _ i Hb) as (y & Hy & Hruny); [lia|].
    exists x, y. split; [done|]. split; [done|].
    rewrite <- Hlo in Hy. by eapply Hall.
  - intros (Hlo & Hhi & Hall). split; [done|]. intros k x y Hx Hy.
    apply lookup_lt_Some in Hx as Hk.
    destruct (Hall (mindex a + Z.of_nat k)) as (x' & y' & Hrunx & Hruny & Hneq);
      [lia|].
    erewrite Get_lookup in Hrunx; [|done|lia|]; last first.
    { replace (Z.to_nat (mindex a + Z.of_nat k - mindex a)) with k by lia. done. }
    erewrite Get_lookup in Hruny; [|done|lia|]; last first.
    { replace (Z.to_nat (mindex a + Z.of_nat k - mindex b)) with k by lia. done. }
    congruence.
Qed.

(** X8: comparing an array whose last index is below [INT_MAX] with
    itself, [operator==] returns true exactly when no element differs from
    itself under the element type's [!=]. *)
Theorem operator_eq_self m this a xs :
  is_array m this a xs →
  int_array a →
  maxdex a < INT_MAX →
  ∃ r, operator_eq this this m = Ok r m ∧
       (r = true ↔ ∀ x, x ∈ xs → T_neq x x = false).
Proof.
  intros Ha ([Hmin _] & _) Hmax. eexists. split; [by eapply operator_eq_spec|].
  rewrite !Z.eqb_refl. simpl. rewrite same_elements_lookup. split.
  - intros Hall x Hx. apply list_elem_of_lookup in Hx as [k Hk]. by eapply Hall.
  - intros Hall k x y Hx Hy. assert (x = y) as <- by congruence.
    apply Hall. apply list_elem_of_lookup. eauto.
Qed.

(** X9: when the element type's [!=] gives the same answer in both orders,
    so does [operator==] on two arrays whose last indices are below
    [INT_MAX]. *)
Theorem operator_eq_symmetric m this other a b xs ys :
  is_array m this a xs →
  is_array m other b ys →
  (∀ x y, T_neq x y = T_neq y x) →
  int_array a → int_array b →
  maxdex a < INT_MAX → maxdex b < INT_MAX →
  ∃ r, operator_eq this other m = Ok r m ∧ operator_eq other this m = Ok r m.
Proof.
  intros Ha Hb Hsym ([Hmina _] & _) ([Hminb _] & _) Hmaxa Hmaxb.
  eexists. split; [by eapply operator_eq_spec|].
  rewrite (operator_eq_spec _ _ _ _ _ _ _ Hb Ha) by done.
  rewrite (same_elements_sym ys xs Hsym).
  by rewrite (Z.eqb_sym (mindex b)), (Z.eqb_sym (maxdex b)).
Qed.

(** What [operator=] leaves, whichever way it takes. *)
Lemma assign_result m this other a b xs ys :
  is_array m this a xs →
  is_array m other b ys →
  this ≠ other →
  separate (data a) (data b) →
  int_array b →
  maxdex b < INT_MAX →
  ∃ m' a',
    operator_assign this other m = Ok this m' ∧
    is_array m' this a' ys ∧
    is_array m' other b ys ∧
    mindex a' = mindex b ∧ maxdex a' = maxdex b ∧
    separate (data a') (data b) ∧
    (m' = realloc m this (mindex b) (maxdex b) ys (data a) ∨
     ∃ blk o, data a = Ptr blk o ∧ a' = a ∧ m' = overwrite m blk ys).
Proof.
  intros Ha Hb Hne Hsep ([Hmin _] & _ & Hsize) Hmax.
  pose proof Ha as (_ & Hlena & _). pose proof Hb as (_ & Hlenb & _).
  assert (Hre : data a = Null ∨ mindex a ≠ mindex b ∨ maxdex a ≠ maxdex b →
    ∃ m' a',
      operator_assign this other m = Ok this m' ∧
      is_array m' this a' ys ∧ is_array m' other b ys ∧
      mindex a' = mindex b ∧ maxdex a' = maxdex b ∧
      separate (data a') (data b) ∧
      (m' = realloc m this (mindex b) (maxdex b) ys (data a) ∨
       ∃ blk o, data a = Ptr blk o ∧ a' = a ∧ m' = overwrite m blk ys)).
  { intros Hshape.
    exists (realloc m this (mindex b) (maxdex b) ys (data a)),
           (mkArray (mindex b) (maxdex b) (fresh_data m (mindex b) ys)).
    split; [by apply (assign_realloc _ _ _ _ _ xs ys)|].
    split; [by apply realloc_is_array|].
    split; [apply realloc_frame; [done | done | by apply separate_sym]|].
    split; [done|]. split; [done|].
    split; [apply separate_sym; by eapply fresh_data_separate | by left]. }
  destruct (data a) as [|blk o] eqn:Hd; [apply Hre; by left|].
  destruct (decide (mindex a = mindex b)) as [Hlo|]; [|apply Hre; auto].
  destruct (decide (maxdex a = maxdex b)) as [Hhi|]; [|apply Hre; auto].
  exists (overwrite m blk ys), a.
  split; [eapply (assign_reuse _ _ _ _ _ xs ys); eauto; by rewrite Hd|].
  split; [eapply overwrite_is_array; [exact Ha | exact Hd | lia]|].
  split.
  { apply overwrite_frame; [done|].
    apply (separate_off _ _ o). by apply separate_sym. }
  split; [done|]. split; [done|]. split; [by rewrite Hd|].
  right. eauto.
Qed.

(** X10: when no value differs from itself under the element type's [!=],
    an array compares equal, by [operator==], to the array just assigned to
    it by [operator=], whatever the two held before, provided the last index
    of the assigned array is below [INT_MAX]. *)
Theorem assign_then_equal m this other a b xs ys :
  is_array m this a xs →
  is_array m other b ys →
  this ≠ other →
  separate (data a) (data b) →
  (∀ x, T_neq x x = false) →
  int_array b →
  maxdex b < INT_MAX →
  ∃ m', (operator_assign this other;; operator_eq this other) m = Ok true m'.
Proof.
  intros Ha Hb Hne Hsep Hirr Hint Hmax.
  destruct (assign_result _ _ _ _ _ _ _ Ha Hb Hne Hsep Hint Hmax)
    as (m' & a' & Hrun & Ha' & Hb' & Hlo & Hhi & _).
  destruct Hint as ([Hmin _] & _).
  exists m'. erewrite bind_Ok; [|exact Hrun].
  rewrite (operator_eq_spec _ _ _ _ _ _ _ Ha' Hb') by lia. rewrite Hlo, Hhi.
  by rewrite !Z.eqb_refl, same_elements_refl.
Qed.

(** X11: when no value differs from itself under the element type's [!=],
    an array whose last index is below [INT_MAX] compares equal, by
    [operator==] in either order, to the copy the copy constructor makes of
    it. *)
Theorem copy_then_equal m this other a xs :
  is_array m other a xs →
  this ≠ other →
  (∀ x, T_neq x x = false) →
  int_array a →
  maxdex a < INT_MAX →
  ∃ m', (Array_copy this other;; operator_eq this other) m = Ok true m' ∧
        operator_eq other this m' = Ok true m'.
Proof.
  intros Ha Hne Hirr ([Hmin _] & _ & Hsize) Hmax. pose proof Ha as (_ & Hlen & _).
  set (m1 := realloc m this (mindex a) (maxdex a) xs Null).
  assert (Ha' : is_array m1 this
                  (mkArray (mindex a) (maxdex a) (fresh_data m (mindex a) xs)) xs)
    by (by apply realloc_is_array).
  assert (Ha1 : is_array m1 other a xs).
  { apply realloc_frame; [done | done | apply separate_Null_r]. }
  exists m1. split.
  - erewrite bind_Ok; [|by apply Array_copy_spec].
    change (operator_eq this other m1 = Ok true m1).
    rewrite (operator_eq_spec _ _ _ _ _ _ _ Ha' Ha1) by done. simpl.
    by rewrite !Z.eqb_refl, same_elements_refl.
  - rewrite (operator_eq_spec _ _ _ _ _ _ _ Ha1 Ha') by done. simpl.
    by rewrite !Z.eqb_refl, same_elements_refl.
Qed.

Lemma removed_inserted lo r v xs :
  0 ≤ r - lo ≤ Z.of_nat (length xs) →
  removed lo r (inserted lo r v xs) = xs.
Proof.
  intros Hr. unfold removed, inserted.
  rewrite <- (length_take_le xs (Z.to_nat (r - lo))) at 1 by lia.
  rewrite delete_middle. apply take_drop.
Qed.

Lemma inserted_removed lo n x xs :
  0 ≤ n - lo →
  xs !! Z.to_nat (n - lo) = Some x →
  inserted lo n x (removed lo n xs) = xs.
Proof.
  intros Hn Hx. apply lookup_lt_Some in Hx as Hlt.
  assert (Hlen : length (removed lo n xs) = (length xs - 1)%nat).
  { unfold removed. by rewrite length_delete. }
  apply list_eq. intros j. rewrite inserted_lookup by lia.
  unfold removed. repeat case_decide.
  - rewrite list_lookup_delete. by case_decide; [|lia].
  - rewrite <- Hx. f_equal. lia.
  - rewrite list_lookup_delete. case_decide; [lia|]. f_equal. lia.
Qed.

(** X12: where [Insert(v, n)] stays within the [int]s ([last + 1] below
    [INT_MAX], fewer than [INT_MAX] elements, a position above [INT_MIN]),
    [Insert(v, n)] followed by [Remove] at the index [Insert] returned gives
    back [v] and leaves the array with the bounds and the elements it had. *)
Theorem Insert_Remove_round_trip m this a xs v n :
  is_array m this a xs →
  int_array a →
  maxdex a + 1 < INT_MAX →
  maxdex a - mindex a + 1 < INT_MAX →
  INT_MIN < clamp (mindex a) (maxdex a) n →
  ∃ r m' a',
    (r ← Insert this v n; x ← Remove this r; mret (r, x)) m = Ok (r, v) m' ∧
    is_array m' this a' xs ∧
    mindex a' = mindex a ∧ maxdex a' = maxdex a.
Proof.
  intros Ha ([Hmin Hmin'] & [Hhi _] & _) Hmax Hsize Hpos.
  pose proof Ha as (_ & Hlen & _).
  pose proof (is_array_bounds _ _ _ _ Ha) as Hb.
  set (r := clamp (mindex a) (maxdex a) n) in *.
  assert (Hr : mindex a ≤ r ≤ maxdex a + 1) by (subst r; unfold clamp; lia).
  set (ins := inserted (mindex a) r v xs).
  set (m1 := realloc m this (mindex a) (maxdex a + 1) ins (data a)).
  assert (Hins : Z.of_nat (length ins) = maxdex a + 1 - mindex a + 1).
  { subst ins. rewrite inserted_length. lia. }
  assert (Ha1 : is_array m1 this
            (mkArray (mindex a) (maxdex a + 1) (fresh_data m (mindex a) ins)) ins)
    by (by apply realloc_is_array).
  destruct (Remove_spec m1 this _ ins r Ha1) as (x & Hx & Hrun);
    [repeat split; simpl; lia | simpl; lia | simpl; lia|].
  simpl in Hx, Hrun.
  assert (x = v) as ->.
  { subst ins. rewrite inserted_lookup in Hx by lia.
    case_decide; [lia|]. case_decide; [congruence | lia]. }
  subst ins. rewrite removed_inserted in Hrun by lia.
  replace (maxdex a + 1 - 1) with (maxdex a) in Hrun by lia.
  exists r. eexists. eexists. split.
  { erewrite bind_Ok; [|by apply Insert_spec].
    erewrite bind_Ok; [|exact Hrun]. reflexivity. }
  split; [by apply realloc_is_array | done].
Qed.

(** X13: on an array whose last index is below [INT_MAX], [Remove(n)], for
    [n] in [First() .. Last()] and above [INT_MIN], followed by [Insert] of
    the element it returned at [n], puts that element back at index [n] and
    leaves the array with the bounds and the elements it had. *)
Theorem Remove_Insert_round_trip m this a xs n :
  is_array m this a xs →
  mindex a ≤ n ≤ maxdex a →
  int_array a →
  maxdex a < INT_MAX →
  INT_MIN < n →
  ∃ x m' a',
    Get this n m = Ok x m ∧
    (x ← Remove this n; r ← Insert this x n; mret (x, r)) m = Ok (x, n) m' ∧
    is_array m' this a' xs ∧
    mindex a' = mindex a ∧ maxdex a' = maxdex a.
Proof.
  intros Ha Hn Hint Hmax Hpos. pose proof Ha as (_ & Hlen & _).
  destruct (Remove_spec _ _ _ _ n Ha Hint ltac:(lia) Hn) as (x & Hx & Hrun).
  destruct Hint as (Hmin & _ & Hsize).
  set (rm := removed (mindex a) n xs) in *.
  set (m1 := realloc m this (mindex a) (maxdex a - 1) rm (data a)) in *.
  assert (Hrm : Z.of_nat (length rm) = maxdex a - 1 - mindex a + 1).
  { subst rm. unfold removed. rewrite length_delete by eauto. lia. }
  assert (Ha1 : is_array m1 this
            (mkArray (mindex a) (maxdex a - 1) (fresh_data m (mindex a) rm)) rm)
    by (by apply realloc_is_array).
  assert (Hclamp : clamp (mindex a) (maxdex a - 1) n = n) by (unfold clamp; lia).
  pose proof (Insert_spec m1 this _ rm x n Ha1) as Hins. simpl in Hins.
  rewrite Hclamp in Hins.
  specialize (Hins Hmin ltac:(lia) ltac:(lia) Hpos).
  subst rm. rewrite inserted_removed in Hins by (done || lia).
  replace (maxdex a - 1 + 1) with (maxdex a) in Hins by lia.
  exists x. eexists. eexists. split; [by eapply Get_lookup|]. split.
  { erewrite bind_Ok; [|exact Hrun].
    erewrite bind_Ok; [|exact Hins]. reflexivity. }
  split; [by apply realloc_is_array | done].
Qed.

(** X14: on an array with [first] above [INT_MIN], [last + 1] below
    [INT_MAX] and fewer than [INT_MAX] elements: after [Insert(v, n)], when
    [v] does not differ from itself under the element type's [!=],
    [Contains(v)] is true and [Find(v)] is an index from [First()] to the
    index [Insert] returned; it is that index when every element the array
    held differs from [v]. *)
Theorem Insert_then_Find m this a xs v n :
  is_array m this a xs →
  T_neq v v = false →
  int_array a →
  INT_MIN < mindex a →
  maxdex a + 1 < INT_MAX →
  maxdex a - mindex a + 1 < INT_MAX →
  ∃ r m' f,
    Insert this v n m = Ok r m' ∧
    Find this v m' = Ok f m' ∧
    Contains this v m' = Ok true m' ∧
    mindex a ≤ f ≤ r ∧
    ((∀ x, x ∈ xs → T_neq x v = true) → f = r).
Proof.
  intros Ha Hv (Hint & _) Hmin Hmax Hsize. pose proof Ha as (_ & Hlen & _).
  pose proof (is_array_bounds _ _ _ _ Ha) as Hb.
  set (r := clamp (mindex a) (maxdex a) n).
  assert (Hr : mindex a ≤ r ≤ maxdex a + 1) by (subst r; unfold clamp; lia).
  set (ins := inserted (mindex a) r v xs).
  set (m1 := realloc m this (mindex a) (maxdex a + 1) ins (data a)).
  assert (Hins : Z.of_nat (length ins) = maxdex a + 1 - mindex a + 1).
  { subst ins. rewrite inserted_length. lia. }
  assert (Ha1 : is_array m1 this
            (mkArray (mindex a) (maxdex a + 1) (fresh_data m (mindex a) ins)) ins)
    by (by apply realloc_is_array).
  assert (Hat : ins !! Z.to_nat (r - mindex a) = Some v).
  { subst ins. rewrite inserted_lookup by lia.
    case_decide; [lia|]. by case_decide; [|lia]. }
  destruct (Find_spec _ _ _ _ v Ha1) as (f & Hrun & Hbelow & Hfound);
    [done | done |].
  simpl in Hbelow, Hfound.
  assert (Hf : mindex a ≤ f ≤ r).
  { destruct Hfound as [->|(Hf & _)].
    - specialize (Hbelow r v). rewrite Hbelow in Hv; [done | lia | by left | done].
    - split; [lia|]. destruct (Z.le_gt_cases f r) as [|Hgt]; [done|].
      specialize (Hbelow r v). rewrite Hbelow in Hv; [done | lia | right; lia | done]. }
  exists r, m1, f. split; [apply Insert_spec; (done || lia)|]. split; [done|].
  split.
  { unfold Contains. rewrite (bind_Ok _ _ _ _ _ Hrun).
    rewrite (bind_Ok _ _ _ _ _ (get_obj_Ok _ _ _ (proj1 Ha1))). simpl.
    rewrite int_pred_eq by done.
    mrun. do 2 f_equal. apply negb_true_iff, Z.eqb_neq. lia. }
  split; [done|].
  intros Hall. destruct (Z.le_gt_cases r f) as [|Hlt]; [lia|].
  destruct Hfound as [->|(_ & x & Hx & Hneq)]; [lia|].
  subst ins. rewrite inserted_lookup in Hx by lia.
  case_decide; [|lia].
  rewrite Hall in Hneq; [done|]. apply list_elem_of_lookup. eauto.
Qed.

(** X15: on an array with [first] above [INT_MIN] and [last] below
    [INT_MAX], [Remove] at the index [Find(v)] returned: when [Find] found
    nothing, that index is [First() - 1] and [Remove] throws
    [IndexException] in an unchanged memory; otherwise [Remove] returns an
    element that compares equal to [v], and the elements below that index
    all differ from [v]. *)
Theorem Find_then_Remove m this a xs v :
  is_array m this a xs →
  int_array a →
  INT_MIN < mindex a →
  maxdex a < INT_MAX →
  ∃ f,
    Find this v m = Ok f m ∧
    (f = mindex a - 1 ∧ Remove this f m = Throw IndexException m
     ∨
     mindex a ≤ f ≤ maxdex a ∧
     ∃ x m', Remove this f m = Ok x m' ∧ T_neq x v = false ∧
             ∀ i, mindex a ≤ i < f →
                  ∃ y, Get this i m' = Ok y m' ∧ T_neq y v = true).
Proof.
  intros Ha Hint Hmin Hmax. pose proof Ha as (Hobj & Hlen & _).
  destruct (Find_spec _ _ _ _ v Ha Hmin Hmax) as (f & Hrun & Hbelow & Hfound).
  exists f. split; [done|].
  destruct Hfound as [->|(Hf & x & Hx & Hneq)].
  - left. split; [done|]. eapply Remove_out_of_range; [done | left; lia].
  - right. split; [done|].
    destruct (Remove_spec _ _ _ _ f Ha Hint ltac:(lia) Hf) as (x' & Hx' & Hrm).
    assert (x' = x) as -> by congruence.
    exists x. eexists. split; [exact Hrm|]. split; [done|].
    intros i Hi.
    assert (is_Some (xs !! Z.to_nat (i - mindex a))) as [y Hy].
    { apply lookup_lt_is_Some. lia. }
    exists y. split.
    + apply realloc_Get; [|lia|].
      * unfold removed. rewrite length_delete by eauto. lia.
      * unfold removed. rewrite list_lookup_delete. by case_decide; [|lia].
    + apply (Hbelow i); [lia | right; lia | done].
Qed.

(** X16: [InsertAt] throws [IndexException], in an unchanged memory, for
    every position below [mindex] or above [maxdex + 1]; on an object whose
    bounds are inverted, with [maxdex + 1] below [mindex], no position is
    left, and every [Insert] and [Append] throws [IndexException] in an
    unchanged memory. *)
Theorem InsertAt_rejects m this a t n :
  objs m !! this = Some a →
  (n < mindex a ∨ maxdex a + 1 < n →
   InsertAt this t n m = Throw IndexException m) ∧
  (maxdex a + 1 < mindex a →
   Insert this t n m = Throw IndexException m ∧
   Append this t m = Throw IndexException m).
Proof.
  intros Hobj.
  pose proof (int_succ_le (maxdex a)) as Hle.
  assert (Hat : ∀ k, k < mindex a ∨ int_succ (maxdex a) < k →
                     InsertAt this t k m = Throw IndexException m).
  { intros k Hk. unfold InsertAt.
    rewrite (bind_Ok _ _ _ _ _ (get_obj_Ok _ _ _ Hobj)).
    replace ((mindex a >? k) || (k >? int_succ (maxdex a))) with true; [done|].
    symmetry. apply orb_true_iff. rewrite !Z.gtb_ltb, !Z.ltb_lt. lia. }
  split; [intros Hn; apply Hat; lia|]. intros Hinv. split.
  - unfold Insert. rewrite (bind_Ok _ _ _ _ _ (get_obj_Ok _ _ _ Hobj)).
    apply Hat. destruct (Z.ltb_spec n (mindex a)); [lia|].
    rewrite Z.gtb_ltb. destruct (Z.ltb_spec (int_succ (maxdex a)) n); lia.
  - unfold Append. rewrite (bind_Ok _ _ _ _ _ (get_obj_Ok _ _ _ Hobj)).
    apply Hat. lia.
Qed.

(** X17: [Array(len)] with [len] from [2^31] on, taken as an [int], gives a
    negative [maxdex]: the constructor returns and builds an object whose
    [Last()] is [len - 2^32] and whose [Length()] is not positive, although
    a block of [len] elements was allocated; every [Get] on it throws
    [IndexException]. *)
Theorem Array_len_large_inverted m this (len : N) :
  (2 ^ 31 ≤ len < 2 ^ 32)%N →
  ∃ m',
    Array_len this len m = Ok () m' ∧
    First this m' = Ok 1 m' ∧
    Last this m' = Ok (Z.of_N len - 2 ^ 32) m' ∧
    Length this m' = Ok (Z.of_N len - 2 ^ 32) m' ∧
    Z.of_N len - 2 ^ 32 < 0 ∧
    bufs m' = bufs m ++ [Some (replicate (N.to_nat len) T_default)] ∧
    ∀ i, Get this i m' = Throw IndexException m'.
Proof.
  intros Hlen. unfold Array_len, int_of_unsigned.
  destruct (N.ltb_spec len (2 ^ 31)); [lia|].
  destruct (N.eqb_spec len 0); [lia|].
  eexists. split.
  { erewrite bind_Ok; last first.
    { erewrite bind_Ok; [|apply new_array_Ok; lia]. reflexivity. }
    reflexivity. }
  set (hi := Z.of_N len - 2 ^ 32).
  assert (Hobj : ∀ bs,
    objs (Mem (<[this := mkArray 1 hi (Ptr (length (bufs m)) (0 - 1))]> (objs m)) bs)
      !! this = Some (mkArray 1 hi (Ptr (length (bufs m)) (0 - 1)))).
  { intros bs. apply lookup_insert_eq. }
  split; [by erewrite First_spec by apply Hobj|].
  split; [by erewrite Last_spec by apply Hobj|].
  split.
  { erewrite Length_spec by apply Hobj. simpl. do 2 f_equal.
    subst hi. unfold int_succ, int_sub, INT_MIN, INT_MAX.
    repeat (rewrite Z.gtb_ltb || case_match); lia. }
  split; [subst hi; lia|].
  split.
  { simpl. by replace (Z.to_nat (Z.of_N len)) with (N.to_nat len) by lia. }
  intros i. eapply Get_out_of_range; [apply Hobj|]. simpl. subst hi. lia.
Qed.

(** X18: an iterator made from an array and advanced [k] times, by either
    increment, stands at index [First() + k], as long as that is at most
    [INT_MAX]; [AtEnd()] is then true exactly when [k] is at least the number
    of elements; below that, [operator->] and the conversion to a pointer
    yield the element at that index and [operator*] yields the object it
    points to: the elements are visited in index order, each once. *)
Theorem iterator_visits_in_order m p a xs (k : nat) :
  is_array m p a xs →
  mindex a + Z.of_nat k ≤ INT_MAX →
  ∃ it0,
    Iterator_new p m = Ok it0 m ∧
    let it := Nat.iter k Iterator_inc_prefix it0 in
    Nat.iter k Iterator_inc_postfix it0 = it ∧
    m_array it = p ∧
    m_index it = mindex a + Z.of_nat k ∧
    AtEnd it m = Ok (bool_decide (length xs ≤ k)%nat) m ∧
    ∀ x, xs !! k = Some x →
         Iterator_arrow it m = Ok x m ∧
         Iterator_cast it m = Ok x m ∧
         Iterator_star it m
         = match pointee x with Some u => Ok u m | None => Undefined end.
Proof.
  intros Ha Hint. pose proof Ha as (Hobj & Hlen & _).
  exists (mkIter p (mindex a)). split.
  { unfold Iterator_new. by rewrite (bind_Ok _ _ _ _ _ (First_spec _ _ _ Hobj)). }
  assert (Hit : ∀ j : nat,
    mindex a + Z.of_nat j ≤ INT_MAX →
    Nat.iter j Iterator_inc_prefix (mkIter p (mindex a))
    = mkIter p (mindex a + Z.of_nat j)).
  { induction j as [|j IH]; intros Hj; simpl.
    - f_equal. lia.
    - rewrite IH by lia. unfold Iterator_inc_prefix. simpl.
      rewrite int_succ_eq by lia. f_equal. lia. }
  assert (Hpost : ∀ j : nat,
    mindex a + Z.of_nat j ≤ INT_MAX →
    Nat.iter j Iterator_inc_postfix (mkIter p (mindex a))
    = mkIter p (mindex a + Z.of_nat j)).
  { induction j as [|j IH]; intros Hj; simpl.
    - f_equal. lia.
    - rewrite IH by lia. unfold Iterator_inc_postfix. simpl.
      rewrite int_succ_eq by lia. f_equal. lia. }
  cbv zeta. rewrite Hit, Hpost by done. simpl.
  split; [done|]. split; [done|]. split; [done|]. split.
  { unfold AtEnd. rewrite (bind_Ok _ _ _ _ _ (Last_spec _ _ _ Hobj)). simpl. mrun.
    do 2 f_equal. rewrite Z.gtb_ltb.
    destruct (Z.ltb_spec (maxdex a) (mindex a + Z.of_nat k)).
    - by rewrite bool_decide_true by lia.
    - by rewrite bool_decide_false by lia. }
  intros x Hx. apply lookup_lt_Some in Hx as Hk.
  assert (Hget : Get p (mindex a + Z.of_nat k) m = Ok x m).
  { eapply Get_lookup; [done | lia |].
    by replace (Z.to_nat (mindex a + Z.of_nat k - mindex a)) with k by lia. }
  split; [done|]. split; [done|].
  unfold Iterator_star. simpl. rewrite (bind_Ok _ _ _ _ _ Hget).
  by destruct (pointee x).
Qed.







(** X20: [Insert], [Append], [Remove] and a write through [operator[]] on
    one array leave every other array that shares no block with it as it
    was, the same fields and the same elements: [Insert] and [Append] where
    [last + 1] is below [INT_MAX] and there are fewer than [INT_MAX]
    elements, [Insert] at a position above [INT_MIN], [Remove] and the write
    at an index in [first .. last], [Remove] where [last] is above
    [INT_MIN]. *)
Theorem mutation_frame m this other a b xs ys v n :
  is_array m this a xs →
  is_array m other b ys →
  this ≠ other →
  separate (data b) (data a) →
  int_array a →
  (maxdex a + 1 < INT_MAX →
   maxdex a - mindex a + 1 < INT_MAX →
   (INT_MIN < clamp (mindex a) (maxdex a) n →
    ∃ r m', Insert this v n m = Ok r m' ∧ is_array m' other b ys) ∧
   (∃ r m', Append this v m = Ok r m' ∧ is_array m' other b ys)) ∧
  (mindex a ≤ n ≤ maxdex a →
   (INT_MIN < maxdex a →
    ∃ x m', Remove this n m = Ok x m' ∧ is_array m' other b ys) ∧
   (∃ m', Put this n v m = Ok () m' ∧ is_array m' other b ys)).
Proof.
  intros Ha Hb Hne Hsep Hint. pose proof Hint as (Hlo & Hhi & _).
  split.
  - intros Hmax Hsize. split.
    + intros Hpos. eexists. eexists.
      split; [by eapply Insert_spec|]. by apply realloc_frame.
    + eexists. eexists. split; [by eapply Append_spec|]. by apply realloc_frame.
  - intros Hn. split.
    + intros Hpos.
      destruct (Remove_spec _ _ _ _ n Ha Hint Hpos Hn) as (x & Hx & Hrun).
      exists x. eexists. split; [exact Hrun|]. by apply realloc_frame.
    + destruct (Put_exact _ _ _ _ n v Ha Hn) as (blk & Hd & Hblk & Hrun).
      eexists. split; [exact Hrun|]. apply overwrite_frame; [done|].
      rewrite Hd in Hsep. exact (separate_off _ _ _ _ Hsep).
Qed.

(** The [const] member functions. *)
Lemma read_only_ret {A} (x : A) : read_only (mret x : M A).
Proof. by intros m. Qed.

Lemma read_only_throw {A} e : read_only (throw e : M A).
Proof. by intros m. Qed.

Lemma read_only_bind {A B} (c : M A) (k : A → M B) :
  read_only c → (∀ x, read_only (k x)) → read_only (c ≫= k).
Proof.
  intros Hc Hk m. specialize (Hc m). unfold mbind, M_bind, bind.
  destruct (c m) as [x m'| |]; [|done..]. subst m'. apply Hk.
Qed.

Lemma read_only_get_obj this : read_only (get_obj this).
Proof. intros m. unfold get_obj. by destruct (objs m !! this). Qed.

Lemma read_only_load p i : read_only (load p i).
Proof.
  intros m. unfold load. destruct (slot p i m) as [[[b xs] k]|]; [|done].
  by destruct (xs !! k).
Qed.

Lemma read_only_Get this i : read_only (Get this i).
Proof.
  apply read_only_bind; [|intros d; apply read_only_load].
  apply read_only_bind; [apply read_only_get_obj|]. intros a.
  destruct (_ || _); [apply read_only_throw | apply read_only_ret].
Qed.

Lemma read_only_rounds {R} (round : Z → M (Z + R)) p :
  (∀ i, read_only (round i)) → ∀ i, read_only (rounds p round i).
Proof.
  intros Hround. induction p as [p IH|p IH|]; intros i; simpl; [| |apply Hround].
  - apply read_only_bind; [apply Hround|]. intros [j|x]; [|apply read_only_ret].
    apply read_only_bind; [apply IH|]. intros [k|x]; [apply IH | apply read_only_ret].
  - apply read_only_bind; [apply IH|]. intros [k|x]; [apply IH | apply read_only_ret].
Qed.

Lemma read_only_loop {R} (round : Z → M (Z + R)) i :
  (∀ j, read_only (round j)) → read_only (loop round i).
Proof.
  intros Hround. apply read_only_bind; [by apply read_only_rounds|].
  intros [j|x]; [by intros m | apply read_only_ret].
Qed.

Lemma read_only_eq_loop this other i hi :
  read_only (eq_loop this other i hi).
Proof.
  apply read_only_loop. intros j.
  destruct (j <=? hi); [|apply read_only_ret].
  apply read_only_bind; [apply read_only_Get|]. intros x.
  apply read_only_bind; [apply read_only_Get|]. intros y.
  destruct (T_neq x y); apply read_only_ret.
Qed.

Lemma read_only_find_loop d t i hi :
  read_only (find_loop d t i hi).
Proof.
  apply read_only_loop. intros j.
  destruct (j <=? hi); [|apply read_only_ret].
  apply read_only_bind; [apply read_only_load|]. intros x.
  destruct (T_neq x t); apply read_only_ret.
Qed.

Lemma read_only_operator_eq this other : read_only (operator_eq this other).
Proof.
  apply read_only_bind; [apply read_only_get_obj|]. intros me.
  apply read_only_bind; [apply read_only_get_obj|]. intros a.
  destruct (_ || _); [apply read_only_ret | apply read_only_eq_loop].
Qed.

Lemma read_only_Find this t : read_only (Find this t).
Proof.
  apply read_only_bind; [apply read_only_get_obj|]. intros a.
  apply read_only_bind; [apply read_only_find_loop|]. intros i.
  apply read_only_ret.
Qed.

(** X21: the [const] member functions of the array and of the iterator
    never change the memory: whatever [Length], [First], [Last], reading
    through [operator[]], [Find], [Contains], [operator==], [operator!=],
    [AtEnd] and the three accesses of the iterator return or throw, in any
    memory and for any arguments, the memory afterwards is the memory of the
    call. *)
Theorem const_members_read_only this other i t (it : ArrayPtrConstIterator) :
  read_only (Length this) ∧
  read_only (First this) ∧
  read_only (Last this) ∧
  read_only (Get this i) ∧
  read_only (Find this t) ∧
  read_only (Contains this t) ∧
  read_only (operator_eq this other) ∧
  read_only (operator_ne this other) ∧
  read_only (AtEnd it) ∧
  read_only (Iterator_star it) ∧
  read_only (Iterator_arrow it) ∧
  read_only (Iterator_cast it).
Proof.
  assert (Hfield : ∀ (f : Array → Z) l,
            read_only (a ← get_obj l; mret (f a))).
  { intros f l. apply read_only_bind; [apply read_only_get_obj|].
    intros a. apply read_only_ret. }
  repeat split.
  - apply (Hfield (λ a, int_succ (int_sub (maxdex a) (mindex a)))).
  - apply (Hfield mindex).
  - apply (Hfield maxdex).
  - apply read_only_Get.
  - apply read_only_Find.
  - apply read_only_bind; [apply read_only_Find|]. intros f.
    apply read_only_bind; [apply read_only_get_obj|]. intros a.
    apply read_only_ret.
  - apply read_only_operator_eq.
  - apply read_only_bind; [apply read_only_operator_eq|]. intros r.
    apply read_only_ret.
  - apply read_only_bind; [apply (Hfield maxdex)|]. intros last.
    apply read_only_ret.
  - apply read_only_bind; [apply read_only_Get|]. intros p.
    destruct (pointee p); [apply read_only_ret | by intros m].
  - apply read_only_Get.
  - apply read_only_Get.
Qed.


End ArrayT.

(** ** The operations on concrete arrays

    Arrays of integers compared with [Z_neq]: [mem3] holds the array
    [10, 20, 30] with bounds [1 .. 3] at address [0]; [mem33] holds it and,
    at address [1], the array [7, 8, 9] with the same bounds. *)

Abbreviation mem3 := (one_array arr3 [10; 20; 30]).

Abbreviation mem33 := (two_arrays arr3 [10; 20; 30] arr3' [7; 8; 9]).

Ltac array_ok := repeat split; (reflexivity || done).

Ltac int_ok :=
  unfold int_array, is_int, clamp; simpl; unfold INT_MIN, INT_MAX; simpl; lia.

(** The scenarios of the contract: [Array(1, 3)] filled with [10, 20, 30],
    then [Insert(15, 2)]; and [Array(0)], then [Append(5)]. *)
Example scenario_insert :
  ∃ m',
    (Array_lo_hi 0 0%nat 1 3;;
     Put 0%nat 1 10;; Put 0%nat 2 20;; Put 0%nat 3 30;;
     r ← Insert 0 0%nat 15 2;
     first ← First 0%nat; last ← Last 0%nat;
     x1 ← Get 0%nat 1; x2 ← Get 0%nat 2; x3 ← Get 0%nat 3; x4 ← Get 0%nat 4;
     mret (r, first, last, [x1; x2; x3; x4])) (Mem ∅ [])
    = Ok (2, 1, 4, [10; 15; 20; 30]) m'.
Proof. eexists. vm_compute. reflexivity. Qed.

Example scenario_append :
  ∃ m',
    (Array_len 0 0%nat 0;;
     first ← First 0%nat; last ← Last 0%nat;
     i ← Append 0 0%nat 5;
     len ← Length 0%nat; x ← Get 0%nat 1;
     mret (first, last, i, len, x)) (Mem ∅ [])
    = Ok (1, 0, 1, 1, 5) m'.
Proof. eexists. vm_compute. reflexivity. Qed.

(** The arrays with [INT_MAX] elements. *)
Lemma zeros_length : Z.of_nat (length zeros) = INT_MAX.
Proof.
  unfold zeros. rewrite length_replicate. apply Z2Nat.id. unfold INT_MAX. lia.
Qed.

Lemma zeros_not_nil : zeros ≠ [].
Proof.
  intros Hnil. pose proof zeros_length as Hlen. rewrite Hnil in Hlen.
  change (0 = INT_MAX) in Hlen. unfold INT_MAX in Hlen. lia.
Qed.

Lemma zeros_elem x : x ∈ zeros → x = 0.
Proof. unfold zeros. intros Hx. by apply elem_of_replicate in Hx as [-> _]. Qed.

Lemma arr_full_is_array : is_array (one_array arr_full zeros) 0%nat arr_full zeros.
Proof.
  split; [reflexivity|]. split.
  - rewrite zeros_length. unfold arr_full. simpl. lia.
  - split; [apply zeros_not_nil|]. split; reflexivity.
Qed.

Lemma arr_long_is_array : is_array (one_array arr_long zeros) 0%nat arr_long zeros.
Proof.
  split; [reflexivity|]. split.
  - rewrite zeros_length. unfold arr_long. simpl. lia.
  - split; [apply zeros_not_nil|]. split; reflexivity.
Qed.

Lemma arr_lo_built :
  (Array_lo_hi 0 0%nat INT_MIN INT_MIN;; Put 0%nat INT_MIN 5) (Mem ∅ [])
  = Ok () (one_array arr_lo [5]).
Proof. reflexivity. Qed.

Lemma arr_full_built :
  Array_len 0 0%nat 2147483647 (Mem ∅ []) = Ok () (one_array arr_full zeros).
Proof.
  rewrite Array_len_spec by lia. unfold realloc.
  replace (N.to_nat 2147483647) with (Z.to_nat INT_MAX) by (unfold INT_MAX; lia).
  fold zeros.
  rewrite fresh_data_cons, alloc_cons by apply zeros_not_nil. reflexivity.
Qed.

Lemma arr_long_built :
  Array_lo_hi 0 0%nat (-1) (INT_MAX - 2) (Mem ∅ [])
  = Ok () (one_array arr_long zeros).
Proof.
  rewrite Array_lo_hi_spec by (unfold INT_MAX; lia). unfold realloc.
  replace (INT_MAX - 2 - -1 + 1) with INT_MAX by lia. fold zeros.
  rewrite fresh_data_cons, alloc_cons by apply zeros_not_nil. reflexivity.
Qed.

Lemma arr_full2_is_array :
  is_array (two_arrays arr_full zeros arr_full' zeros) 0%nat arr_full zeros ∧
  is_array (two_arrays arr_full zeros arr_full' zeros) 1%nat arr_full' zeros.
Proof.
  split.
  - split; [reflexivity|]. split.
    + rewrite zeros_length. unfold arr_full. simpl. lia.
    + split; [apply zeros_not_nil|]. split; reflexivity.
  - split; [reflexivity|]. split.
    + rewrite zeros_length. unfold arr_full'. simpl. lia.
    + split; [apply zeros_not_nil|]. split; reflexivity.
Qed.

(** ** The contract at the ends of the range of [int] *)

(** C1, as stated for every array and every [n], fails on
    [Array(2147483646, 2147483646)], which [arr_hi] is: [Insert] at its one
    index makes [maxdex] [INT_MAX], so that the second loop of [InsertAt] is
    not left; on [Array(-2147483648, -2147483648)], which [arr_lo] is, here
    holding [5], [Insert] at [INT_MIN] takes the bound [n - 1] of the first
    loop to [INT_MAX]; and on [Array(-1, 2147483645)], which [arr_long] is,
    with [INT_MAX] elements, the size of the new block is not an [int].
    None of the three calls returns. *)
Lemma Insert_leaves_int_range :
  Array_lo_hi 0 0%nat (INT_MAX - 1) (INT_MAX - 1) (Mem ∅ [])
  = Ok () (one_array arr_hi [0]) ∧
  is_array (one_array arr_hi [0]) 0%nat arr_hi [0] ∧
  Insert 0 0%nat 7 (INT_MAX - 1) (one_array arr_hi [0]) = Undefined ∧
  (Array_lo_hi 0 0%nat INT_MIN INT_MIN;; Put 0%nat INT_MIN 5) (Mem ∅ [])
  = Ok () (one_array arr_lo [5]) ∧
  is_array (one_array arr_lo [5]) 0%nat arr_lo [5] ∧
  Insert 0 0%nat 7 INT_MIN (one_array arr_lo [5]) = Undefined ∧
  Array_lo_hi 0 0%nat (-1) (INT_MAX - 2) (Mem ∅ [])
  = Ok () (one_array arr_long zeros) ∧
  is_array (one_array arr_long zeros) 0%nat arr_long zeros ∧
  Insert 0 0%nat 7 0 (one_array arr_long zeros) = Undefined ∧
  int_array arr_hi ∧ int_array arr_lo ∧ int_array arr_long.
Proof.
  split; [reflexivity|]. split; [array_ok|]. split; [by vm_compute|].
  split; [apply arr_lo_built|]. split; [array_ok|]. split; [by vm_compute|].
  split; [apply arr_long_built|]. split; [apply arr_long_is_array|].
  split; [|repeat split; int_ok].
  apply (Insert_too_long 0 _ 0%nat arr_long); [reflexivity | int_ok | int_ok].
Qed.

(** C2, as stated for every array and every index of it, fails on
    [Array(-2147483648, -2147483648)] holding [5]: [Remove] at its one index
    takes [--maxdex] to [INT_MAX], and the second loop reads outside the
    block. *)
Lemma Remove_leaves_int_range :
  (Array_lo_hi 0 0%nat INT_MIN INT_MIN;; Put 0%nat INT_MIN 5) (Mem ∅ [])
  = Ok () (one_array arr_lo [5]) ∧
  is_array (one_array arr_lo [5]) 0%nat arr_lo [5] ∧
  int_array arr_lo ∧
  Get 0%nat INT_MIN (one_array arr_lo [5]) = Ok 5 (one_array arr_lo [5]) ∧
  Remove 0 0%nat INT_MIN (one_array arr_lo [5]) = Undefined.
Proof.
  split; [apply arr_lo_built|]. split; [array_ok|].
  split; [repeat split; int_ok|].
  split; [reflexivity | by vm_compute].
Qed.

(** C3, as stated for every array, fails on [Array(2147483646, 2147483646)],
    where [Append] makes [maxdex] [INT_MAX] and the second loop of
    [InsertAt] is not left, and on [Array(-1, 2147483645)], which has
    [INT_MAX] elements, where the size of the new block is not an [int]. *)
Lemma Append_leaves_int_range :
  Array_lo_hi 0 0%nat (INT_MAX - 1) (INT_MAX - 1) (Mem ∅ [])
  = Ok () (one_array arr_hi [0]) ∧
  is_array (one_array arr_hi [0]) 0%nat arr_hi [0] ∧
  Append 0 0%nat 7 (one_array arr_hi [0]) = Undefined ∧
  Array_lo_hi 0 0%nat (-1) (INT_MAX - 2) (Mem ∅ [])
  = Ok () (one_array arr_long zeros) ∧
  is_array (one_array arr_long zeros) 0%nat arr_long zeros ∧
  Append 0 0%nat 7 (one_array arr_long zeros) = Undefined ∧
  int_array arr_hi ∧ int_array arr_long.
Proof.
  split; [reflexivity|]. split; [array_ok|]. split; [by vm_compute|].
  split; [apply arr_long_built|]. split; [apply arr_long_is_array|].
  split; [|repeat split; int_ok].
  apply (Append_too_long 0 _ 0%nat arr_long); [reflexivity | int_ok | int_ok].
Qed.


(** C5, as stated for all [lo] and [hi], fails for [hi = INT_MAX], where
    [maxdex + 1] is [INT_MIN]: [Array(2147483647, 2147483647)] throws
    [RangeException] although [hi + 1 < lo] does not hold; and it fails
    where [hi - lo + 1] is not an [int]: [Array(-2, 2147483646)] neither
    throws [RangeException] nor returns. *)
Lemma Array_lo_hi_leaves_int_range :
  Array_lo_hi 0 0%nat INT_MAX INT_MAX (Mem ∅ [])
  = Throw RangeException (Mem ∅ []) ∧
  (INT_MAX + 1 <? INT_MAX) = false ∧
  Array_lo_hi 0 0%nat (-2) (INT_MAX - 1) (Mem ∅ []) = Undefined ∧
  (INT_MAX - 1 + 1 <? -2) = false.
Proof. repeat split; reflexivity. Qed.

(** C7, as stated for every array, fails on
    [Array(-2147483648, -2147483648)] holding [5]: for [6], which the array
    does not hold, [Find] returns [first - 1] as the machine computes it,
    [INT_MAX], which is not [first - 1]; and it fails on
    [Array(2147483647u)], whose last index is [INT_MAX]: for a value the
    array does not hold the loop of [Find] is not left at [INT_MAX], and
    [Find] does not return. *)
Lemma Find_leaves_int_range :
  (Array_lo_hi 0 0%nat INT_MIN INT_MIN;; Put 0%nat INT_MIN 5) (Mem ∅ [])
  = Ok () (one_array arr_lo [5]) ∧
  is_array (one_array arr_lo [5]) 0%nat arr_lo [5] ∧
  Find Z_neq 0%nat 6 (one_array arr_lo [5]) = Ok INT_MAX (one_array arr_lo [5]) ∧
  INT_MAX ≠ mindex arr_lo - 1 ∧
  Array_len 0 0%nat 2147483647 (Mem ∅ []) = Ok () (one_array arr_full zeros) ∧
  is_array (one_array arr_full zeros) 0%nat arr_full zeros ∧
  Find Z_neq 0%nat 1 (one_array arr_full zeros) = Undefined.
Proof.
  split; [apply arr_lo_built|].
  split; [array_ok|]. split; [by vm_compute|]. split; [by vm_compute|].
  split; [apply arr_full_built|]. split; [apply arr_full_is_array|].
  apply (Find_overflow Z_neq _ 0%nat arr_full zeros);
    [apply arr_full_is_array | int_ok | int_ok | reflexivity |].
  intros x Hx. by rewrite (zeros_elem x Hx).
Qed.

(** C8, as stated for every pair of arrays, fails on two arrays built by
    [Array(2147483647u)], whose last index is [INT_MAX]: the loop of
    [operator=] that copies the elements is not left at [INT_MAX], and the
    assignment does not return. *)
Lemma assign_leaves_int_range :
  (Array_len 0 0%nat 2147483647;; Array_len 0 1%nat 2147483647) (Mem ∅ [])
  = Ok () (two_arrays arr_full zeros arr_full' zeros) ∧
  is_array (two_arrays arr_full zeros arr_full' zeros) 0%nat arr_full zeros ∧
  is_array (two_arrays arr_full zeros arr_full' zeros) 1%nat arr_full' zeros ∧
  operator_assign 0 0%nat 1%nat (two_arrays arr_full zeros arr_full' zeros)
  = Undefined.
Proof.
  split.
  { erewrite bind_Ok; [|apply arr_full_built].
    rewrite Array_len_spec by lia. unfold realloc.
    replace (N.to_nat 2147483647) with (Z.to_nat INT_MAX) by (unfold INT_MAX; lia).
    fold zeros. rewrite fresh_data_cons, alloc_cons by apply zeros_not_nil.
    reflexivity. }
  split; [apply arr_full2_is_array|]. split; [apply arr_full2_is_array|].
  apply (assign_overflow 0 _ 0%nat 1%nat arr_full arr_full' zeros zeros 0%nat (-1));
    [apply arr_full2_is_array | apply arr_full2_is_array | lia | simpl; lia
    | reflexivity | reflexivity | reflexivity | int_ok | reflexivity].
Qed.

(** C9, as stated for every iterator, fails on [Array(2147483647,
    2147483646)], which has no element: its iterator starts at [INT_MAX],
    where [AtEnd()] is true; either increment takes the index to [INT_MIN],
    not to the next index, and [AtEnd()] is false again. *)
Lemma iterator_leaves_int_range :
  Array_lo_hi 0 0%nat INT_MAX (INT_MAX - 1) (Mem ∅ [])
  = Ok () (Mem {[ 0%nat := arr_end ]} []) ∧
  Iterator_new 0%nat (Mem (T:=Z) {[ 0%nat := arr_end ]} [])
  = Ok (mkIter 0%nat INT_MAX) (Mem {[ 0%nat := arr_end ]} []) ∧
  Iterator_inc_prefix (mkIter 0%nat INT_MAX) = mkIter 0%nat INT_MIN ∧
  Iterator_inc_postfix (mkIter 0%nat INT_MAX) = mkIter 0%nat INT_MIN ∧
  INT_MIN ≠ INT_MAX + 1 ∧
  AtEnd (mkIter 0%nat INT_MAX) (Mem (T:=Z) {[ 0%nat := arr_end ]} [])
  = Ok true (Mem {[ 0%nat := arr_end ]} []) ∧
  AtEnd (Iterator_inc_prefix (mkIter 0%nat INT_MAX))
    (Mem (T:=Z) {[ 0%nat := arr_end ]} [])
  = Ok false (Mem {[ 0%nat := arr_end ]} []).
Proof. repeat split; by vm_compute. Qed.

(** ** The contract on [mem3] and [mem33] *)

Lemma Insert_clamps_and_shifts_witness :
  ∃ m', Insert 0 0%nat 15 2 mem3 = Ok 2 m' ∧ Get 0%nat 2 m' = Ok 15 m'.
Proof.
  destruct (Insert_clamps_and_shifts 0 mem3 0%nat arr3 [10; 20; 30] 15 2)
    as (m' & Hrun & _ & _ & _ & _ & _ & _ & _ & _ & Hget & _).
  { array_ok. }
  { int_ok. }
  { int_ok. }
  { int_ok. }
  { int_ok. }
  exists m'. split; [exact Hrun | exact Hget].
Defined.

Lemma Remove_returns_and_shifts_witness :
  ∃ m', Remove 0 0%nat 2 mem3 = Ok 20 m' ∧ Last 0%nat m' = Ok 2 m'.
Proof.
  destruct (Remove_returns_and_shifts 0 mem3 0%nat arr3 [10; 20; 30] 2)
    as (x & m' & a' & Hget & Hrun & _ & Hlast & _).
  { array_ok. }
  { int_ok. }
  { int_ok. }
  { simpl. lia. }
  assert (x = 20) as Hx by (vm_compute in Hget; congruence).
  exists m'. split; [|exact Hlast].
  rewrite Hx in Hrun. exact Hrun.
Defined.

Lemma Append_at_new_last_witness :
  ∃ m', Append 0 0%nat 40 mem3 = Ok 4 m' ∧ Get 0%nat 4 m' = Ok 40 m'.
Proof.
  destruct (Append_at_new_last 0 mem3 0%nat arr3 [10; 20; 30] 40)
    as (m' & Hrun & _ & _ & Hget & _).
  { array_ok. }
  { int_ok. }
  { int_ok. }
  { int_ok. }
  exists m'. split; [exact Hrun | exact Hget].
Defined.


Lemma Array_lo_hi_range_witness :
  ∃ m', Array_lo_hi 0 0%nat 1 3 (Mem ∅ []) = Ok () m' ∧ Length 0%nat m' = Ok 3 m'.
Proof.
  destruct (Array_lo_hi_range 0 (Mem ∅ []) 0%nat 1 3) as [_ Hok].
  { int_ok. }
  { int_ok. }
  destruct Hok as (m' & xs & Hrun & _ & _ & Hlen & _); [lia|].
  exists m'. split; [exact Hrun | exact Hlen].
Defined.

Lemma index_errors_leave_memory_witness :
  Get 0%nat 4 mem3 = Throw IndexException mem3 ∧
  Remove 0 0%nat 4 mem3 = Throw IndexException mem3.
Proof.
  apply (index_errors_leave_memory 0 mem3 0%nat arr3 4).
  - reflexivity.
  - right. simpl. lia.
Defined.

Lemma Find_lowest_index_witness :
  ∃ r, Find Z_neq 0%nat 20 mem3 = Ok r mem3 ∧
       Contains Z_neq 0%nat 20 mem3 = Ok (negb (r =? 1 - 1)) mem3.
Proof.
  destruct (Find_lowest_index Z_neq mem3 0%nat arr3 [10; 20; 30] 20)
    as (r & Hrun & _ & _ & Hc & _).
  { array_ok. }
  { int_ok. }
  { int_ok. }
  exists r. split; [exact Hrun | exact Hc].
Defined.

Lemma assign_deep_copy_witness :
  ∃ m' a',
    operator_assign 0 0%nat 1%nat mem33 = Ok 0%nat m' ∧
    is_array m' 0%nat a' [7; 8; 9] ∧ data a' = data arr3.
Proof.
  destruct (assign_deep_copy 0 mem33 0%nat 1%nat arr3 arr3' [10; 20; 30] [7; 8; 9])
    as (m' & a' & Hrun & Ha' & _ & _ & _ & _ & _ & Hreuse & _).
  { array_ok. }
  { array_ok. }
  { lia. }
  { simpl. lia. }
  { int_ok. }
  { int_ok. }
  exists m', a'. split; [exact Hrun|]. split; [exact Ha'|].
  apply Hreuse; done.
Defined.

Lemma iterator_contract_witness :
  Iterator_new 0%nat mem3 = Ok (mkIter 0%nat 1) mem3 ∧
  Iterator_star Z_pointee (mkIter 0%nat 4) mem3 = Throw IndexException mem3.
Proof.
  destruct (iterator_contract Z_pointee mem3 0%nat arr3 (mkIter 0%nat 4))
    as (Hnew & _ & _ & _ & Hend).
  { reflexivity. }
  { reflexivity. }
  split; [exact Hnew|]. apply Hend. simpl. lia.
Defined.

Lemma Insert_above_last_is_Append_witness :
  Insert 0 0%nat 40 7 mem3 = Append 0 0%nat 40 mem3.
Proof.
  apply (Insert_above_last_is_Append 0 mem3 0%nat arr3 40 7).
  - reflexivity.
  - simpl. lia.
Defined.

(** The further properties on the concrete arrays. *)

Lemma Array_len_builds_witness :
  ∃ m', Array_len 0 0%nat 3 (Mem ∅ []) = Ok () m' ∧ Length 0%nat m' = Ok 3 m'.
Proof.
  destruct (Array_len_builds 0 (Mem ∅ []) 0%nat 3)
    as (m' & a & Hrun & _ & _ & _ & Hlen & _).
  { reflexivity. }
  exists m'. split; [exact Hrun | exact Hlen].
Defined.

Lemma Put_then_Get_witness :
  (∃ m', Put 0%nat 2 99 mem3 = Ok () m' ∧ Get 0%nat 2 m' = Ok 99 m') ∧
  Put 0%nat 4 99 mem3 = Throw IndexException mem3.
Proof.
  destruct (Put_then_Get mem3 0%nat arr3 [10; 20; 30] 2 99) as [Hin _].
  { array_ok. }
  destruct (Put_then_Get mem3 0%nat arr3 [10; 20; 30] 4 99) as [_ Hout].
  { array_ok. }
  split.
  - destruct Hin as (m' & Hrun & Hget & _); [simpl; lia|].
    exists m'. split; [exact Hrun | exact Hget].
  - apply Hout. right. simpl. lia.
Defined.

Lemma Array_copy_independent_witness :
  ∃ m1 a', Array_copy 0 5%nat 0%nat mem3 = Ok () m1 ∧
           is_array m1 5%nat a' [10; 20; 30] ∧
           is_array m1 0%nat arr3 [10; 20; 30].
Proof.
  destruct (Array_copy_independent 0 mem3 5%nat 0%nat arr3 [10; 20; 30])
    as (m1 & a' & Hrun & Ha' & _ & _ & Ha & _).
  { array_ok. }
  { lia. }
  { int_ok. }
  { int_ok. }
  exists m1, a'. split; [exact Hrun|]. split; [exact Ha' | exact Ha].
Defined.

Lemma Array_destroy_releases_witness :
  ∃ m', Array_destroy 0%nat mem3 = Ok () m' ∧
        objs m' !! 0%nat = None ∧ bufs m' !! 0%nat = Some None.
Proof.
  destruct (Array_destroy_releases mem3 0%nat arr3 [10; 20; 30])
    as (m' & Hrun & Hobj & Hblk & _).
  { array_ok. }
  exists m'. split; [exact Hrun|]. split; [exact Hobj|].
  apply (Hblk 0%nat (-1)). reflexivity.
Defined.

Lemma construct_destroy_no_leak_witness :
  ∃ m', (Array_lo_hi 0 7%nat 1 3;; Array_destroy 7%nat) mem3 = Ok () m' ∧
        live (bufs m') = live (bufs mem3).
Proof.
  destruct (construct_destroy_no_leak 0 mem3 7%nat 1 3)
    as (m' & Hrun & Hlive & _).
  { lia. }
  { int_ok. }
  { int_ok. }
  exists m'. split; [exact Hrun | exact Hlive].
Defined.

Lemma mutation_block_count_witness :
  ∃ r m', Insert 0 0%nat 15 2 mem3 = Ok r m' ∧
          live (bufs m') = live (bufs mem3).
Proof.
  destruct (mutation_block_count 0 mem3 0%nat arr3 [10; 20; 30] 15 2)
    as [Hins _].
  { array_ok. }
  { int_ok. }
  destruct Hins as (r & m' & Hrun & Hlive); [int_ok | int_ok | int_ok |].
  exists r, m'. split; [exact Hrun|]. rewrite Hlive. reflexivity.
Defined.

Lemma operator_eq_decides_witness :
  ∃ r, operator_eq Z_neq 0%nat 1%nat mem33 = Ok r mem33 ∧
       operator_ne Z_neq 0%nat 1%nat mem33 = Ok (negb r) mem33.
Proof.
  destruct (operator_eq_decides Z_neq mem33 0%nat 1%nat arr3 arr3'
              [10; 20; 30] [7; 8; 9]) as (r & Heq & Hne & _).
  { array_ok. }
  { array_ok. }
  { int_ok. }
  { int_ok. }
  exists r. split; [exact Heq | exact Hne].
Defined.

Lemma operator_eq_self_witness :
  ∃ r, operator_eq Z_neq 0%nat 0%nat mem3 = Ok r mem3.
Proof.
  destruct (operator_eq_self Z_neq mem3 0%nat arr3 [10; 20; 30]) as (r & Heq & _).
  { array_ok. }
  { int_ok. }
  { int_ok. }
  exists r. exact Heq.
Defined.

Lemma operator_eq_symmetric_witness :
  ∃ r, operator_eq Z_neq 0%nat 1%nat mem33 = Ok r mem33 ∧
       operator_eq Z_neq 1%nat 0%nat mem33 = Ok r mem33.
Proof.
  apply (operator_eq_symmetric Z_neq mem33 0%nat 1%nat arr3 arr3'
           [10; 20; 30] [7; 8; 9]).
  - array_ok.
  - array_ok.
  - intros x y. unfold Z_neq. by rewrite Z.eqb_sym.
  - int_ok.
  - int_ok.
  - int_ok.
  - int_ok.
Defined.

Lemma assign_then_equal_witness :
  ∃ m', (operator_assign 0 0%nat 1%nat;; operator_eq Z_neq 0%nat 1%nat) mem33
        = Ok true m'.
Proof.
  apply (assign_then_equal 0 Z_neq mem33 0%nat 1%nat arr3 arr3'
           [10; 20; 30] [7; 8; 9]).
  - array_ok.
  - array_ok.
  - lia.
  - simpl. lia.
  - intros x. unfold Z_neq. by rewrite Z.eqb_refl.
  - int_ok.
  - int_ok.
Defined.

Lemma copy_then_equal_witness :
  ∃ m', (Array_copy 0 5%nat 0%nat;; operator_eq Z_neq 5%nat 0%nat) mem3
        = Ok true m' ∧
        operator_eq Z_neq 0%nat 5%nat m' = Ok true m'.
Proof.
  apply (copy_then_equal 0 Z_neq mem3 5%nat 0%nat arr3 [10; 20; 30]).
  - array_ok.
  - lia.
  - intros x. unfold Z_neq. by rewrite Z.eqb_refl.
  - int_ok.
  - int_ok.
Defined.

Lemma Insert_Remove_round_trip_witness :
  ∃ r m' a',
    (r ← Insert 0 0%nat 15 2; x ← Remove 0 0%nat r; mret (r, x)) mem3
    = Ok (r, 15) m' ∧
    is_array m' 0%nat a' [10; 20; 30].
Proof.
  destruct (Insert_Remove_round_trip 0 mem3 0%nat arr3 [10; 20; 30] 15 2)
    as (r & m' & a' & Hrun & Ha' & _).
  { array_ok. }
  { int_ok. }
  { int_ok. }
  { int_ok. }
  { int_ok. }
  exists r, m', a'. split; [exact Hrun | exact Ha'].
Defined.

Lemma Remove_Insert_round_trip_witness :
  ∃ x m' a',
    (x ← Remove 0 0%nat 2; r ← Insert 0 0%nat x 2; mret (x, r)) mem3
    = Ok (x, 2) m' ∧
    is_array m' 0%nat a' [10; 20; 30].
Proof.
  destruct (Remove_Insert_round_trip 0 mem3 0%nat arr3 [10; 20; 30] 2)
    as (x & m' & a' & _ & Hrun & Ha' & _).
  { array_ok. }
  { simpl. lia. }
  { int_ok. }
  { int_ok. }
  { int_ok. }
  exists x, m', a'. split; [exact Hrun | exact Ha'].
Defined.

Lemma Insert_then_Find_witness :
  ∃ r m' f, Insert 0 0%nat 15 2 mem3 = Ok r m' ∧
            Find Z_neq 0%nat 15 m' = Ok f m' ∧
            Contains Z_neq 0%nat 15 m' = Ok true m'.
Proof.
  destruct (Insert_then_Find 0 Z_neq mem3 0%nat arr3 [10; 20; 30] 15 2)
    as (r & m' & f & Hrun & Hfind & Hc & _).
  { array_ok. }
  { reflexivity. }
  { int_ok. }
  { int_ok. }
  { int_ok. }
  { int_ok. }
  exists r, m', f. split; [exact Hrun|]. split; [exact Hfind | exact Hc].
Defined.

Lemma Find_then_Remove_witness :
  ∃ f, Find Z_neq 0%nat 20 mem3 = Ok f mem3.
Proof.
  destruct (Find_then_Remove 0 Z_neq mem3 0%nat arr3 [10; 20; 30] 20)
    as (f & Hfind & _).
  { array_ok. }
  { int_ok. }
  { int_ok. }
  { int_ok. }
  exists f. exact Hfind.
Defined.

Lemma InsertAt_rejects_witness :
  InsertAt 0 0%nat 15 9 mem3 = Throw IndexException mem3.
Proof.
  destruct (InsertAt_rejects 0 mem3 0%nat arr3 15 9) as [Hat _].
  { reflexivity. }
  apply Hat. right. simpl. lia.
Defined.

Lemma Array_len_large_inverted_witness :
  ∃ m', Array_len 0 0%nat (2 ^ 31) (Mem ∅ []) = Ok () m' ∧
        ∀ i, Get 0%nat i m' = Throw IndexException m'.
Proof.
  destruct (Array_len_large_inverted 0 (Mem ∅ []) 0%nat (2 ^ 31))
    as (m' & Hrun & _ & _ & _ & _ & _ & Hget).
  { lia. }
  exists m'. split; [exact Hrun | exact Hget].
Defined.

Lemma iterator_visits_in_order_witness :
  ∃ it0, Iterator_new 0%nat mem3 = Ok it0 mem3 ∧
         Iterator_star Z_pointee (Nat.iter 1 Iterator_inc_prefix it0) mem3
         = Ok 20 mem3.
Proof.
  destruct (iterator_visits_in_order Z_pointee mem3 0%nat arr3 [10; 20; 30] 1)
    as (it0 & Hnew & _ & _ & _ & _ & Hat).
  { array_ok. }
  { int_ok. }
  exists it0. split; [exact Hnew|].
  destruct (Hat 20) as (_ & _ & Hstar); [reflexivity | exact Hstar].
Defined.


Lemma mutation_frame_witness :
  ∃ r m', Insert 0 0%nat 15 2 mem33 = Ok r m' ∧
          is_array m' 1%nat arr3' [7; 8; 9].
Proof.
  destruct (mutation_frame 0 mem33 0%nat 1%nat arr3 arr3'
              [10; 20; 30] [7; 8; 9] 15 2) as [Hins _].
  { array_ok. }
  { array_ok. }
  { lia. }
  { simpl. lia. }
  { int_ok. }
  destruct Hins as [Hins _]; [int_ok | int_ok |].
  apply Hins. int_ok.
Defined.
